(** * Coverage planning for the wall-finishing robot

    A shallow embedding of the coverage planner described by the
    repository's algorithm document and README (zigzag and spiral
    planners, obstacle expansion and merging, point and path
    validation, path metrics) and of the planner settings the React
    front end sends, followed by the properties proved about them.

    Coordinates are Python floats in the program.  They are modelled
    here as exact rationals ([Q]); the path length, which needs a square
    root, is modelled over the real numbers ([R]).  Rounding is not
    modelled. *)

From Stdlib Require Import String.
From Stdlib Require Import Reals Lra.
From Stdlib Require Import QArith Qround Qabs Qminmax Qreals ZArith List Bool Lia Lqa.
Import ListNotations.

Set Warnings "-abstract-large-number".
Local Open Scope Q_scope.

(** ** Numbers *)

Definition Qlt_bool (a b : Q) : bool := negb (Qle_bool b a).

(** ** Data model *)

Definition Point : Type := (Q * Q)%type.

(** [Rectangle(x, y, width, height)]; obstacles are rectangles too. *)
Record Rectangle : Type := mkRectangle {
  rect_x : Q;
  rect_y : Q;
  rect_width : Q;
  rect_height : Q
}.

Record Wall : Type := mkWall {
  wall_width : Q;
  wall_height : Q
}.

Inductive Pattern : Type := zigzag | spiral.

Record PlannerSettings : Type := mkSettings {
  pattern : Pattern;
  spacing : Q;
  speed : Q;
  clearance : Q;
  resolution : Q
}.

(** Every error of the planner is a Python [ValueError]; the
    constructors stand for the messages. *)
Inductive ValueError : Type :=
  | ObstacleExceedsWall          (* "Obstacle exceeds wall dimensions" *)
  | NoValidPath                  (* "No valid coverage path exists for given parameters" *)
  | TrajectoryTooLarge (n : nat) (* "Trajectory too large (n points). ..." *)
  | PointInsideObstacle (p : Point)  (* "Path point p inside obstacle!" *)
  | SegmentCrossesObstacle (i : nat) (* "Path segment i crosses obstacle!" *).

Inductive Result (A : Type) : Type :=
  | Ok (a : A)
  | Raise (e : ValueError).
Arguments Ok {A} a.
Arguments Raise {A} e.

(** ** Geometry primitives *)

(** Modelled from the spec: [Rectangle.contains_point] is not in the
    sources; section 4.1 (and Theorem 1.1 of the technical report)
    gives the closed test [x0 <= x <= x0+w] and [y0 <= y <= y0+h]. *)
Definition contains_point (r : Rectangle) (x y : Q) : bool :=
  Qle_bool (rect_x r) x && Qle_bool x (rect_x r + rect_width r)
  && Qle_bool (rect_y r) y && Qle_bool y (rect_y r + rect_height r).

(** Modelled from the spec: [intersects_horizontal_segment] is not in
    the sources; section 4.1 asks for the exact interval overlap test,
    which Theorem 2.1 of the technical report writes
    [Ry <= y <= Ry+Rh], [x1 < Rx+Rw], [x2 > Rx] for [x1 <= x2].  The
    end points are put in order first. *)
Definition intersects_horizontal_segment (r : Rectangle) (x1 x2 y : Q) : bool :=
  Qle_bool (rect_y r) y && Qle_bool y (rect_y r + rect_height r)
  && Qlt_bool (Qmin x1 x2) (rect_x r + rect_width r)
  && Qlt_bool (rect_x r) (Qmax x1 x2).

(** Modelled from the spec: [intersects_vertical_segment], as above
    (Theorem 2.2 of the technical report). *)
Definition intersects_vertical_segment (r : Rectangle) (x y1 y2 : Q) : bool :=
  Qle_bool (rect_x r) x && Qle_bool x (rect_x r + rect_width r)
  && Qlt_bool (Qmin y1 y2) (rect_y r + rect_height r)
  && Qlt_bool (rect_y r) (Qmax y1 y2).

(** Number of samples of a sloped segment:
    [max(10, floor(distance(p1, p2) / resolution))].  Over the reals
    [floor (sqrt d2 / r) = floor (sqrt (d2 / r^2))], and the floor of a
    square root is the integer square root of the floor. *)
Definition sample_count (res x1 y1 x2 y2 : Q) : nat :=
  let d2 := (x2 - x1) * (x2 - x1) + (y2 - y1) * (y2 - y1) in
  Nat.max 10 (Z.to_nat (Z.sqrt (Qfloor (d2 / (res * res))))).

Fixpoint any_sample_inside (r : Rectangle) (x1 y1 x2 y2 : Q) (n i : nat) : bool :=
  let t := inject_Z (Z.of_nat i) / inject_Z (Z.of_nat n) in
  let hit := contains_point r (x1 + t * (x2 - x1)) (y1 + t * (y2 - y1)) in
  match i with
  | O => hit
  | S j => hit || any_sample_inside r x1 y1 x2 y2 n j
  end.

(** Modelled from the spec: [line_segment_intersects_rectangle] is not
    in the sources; section 4.1 samples [n] points of the parametric
    segment [P1 + t (P2 - P1)] and tests each with the point test.  The
    samples are taken at [t = i/n] for [i = 0 .. n]. *)
Definition line_segment_intersects_rectangle
    (res x1 y1 x2 y2 : Q) (r : Rectangle) : bool :=
  let n := sample_count res x1 y1 x2 y2 in
  any_sample_inside r x1 y1 x2 y2 n n.

(** ** Obstacle handling *)

(** [expand_obstacle(obstacle, clearance)] *)
Definition expand_obstacle (obstacle : Rectangle) (c : Q) : Rectangle :=
  mkRectangle (rect_x obstacle - c) (rect_y obstacle - c)
              (rect_width obstacle + 2 * c) (rect_height obstacle + 2 * c).

(** [expand_obstacles(obstacles, clearance)] *)
Definition expand_obstacles (obstacles : list Rectangle) (c : Q) : list Rectangle :=
  map (fun obs => expand_obstacle obs c) obstacles.

(** Modelled from the spec: the two helpers of [merge_obstacles] are
    not in the sources.  Two rectangles overlap when their (closed)
    boxes intersect; [find_overlapping] returns the first stored
    rectangle that overlaps the new one; [union] is the bounding box of
    the two. *)
Definition overlaps (a b : Rectangle) : bool :=
  Qle_bool (rect_x a) (rect_x b + rect_width b)
  && Qle_bool (rect_x b) (rect_x a + rect_width a)
  && Qle_bool (rect_y a) (rect_y b + rect_height b)
  && Qle_bool (rect_y b) (rect_y a + rect_height a).

Fixpoint find_overlapping (obs : Rectangle) (merged : list Rectangle)
  : option Rectangle :=
  match merged with
  | [] => None
  | m :: rest => if overlaps obs m then Some m else find_overlapping obs rest
  end.

Definition union (a b : Rectangle) : Rectangle :=
  let x0 := Qmin (rect_x a) (rect_x b) in
  let y0 := Qmin (rect_y a) (rect_y b) in
  let x1 := Qmax (rect_x a + rect_width a) (rect_x b + rect_width b) in
  let y1 := Qmax (rect_y a + rect_height a) (rect_y b + rect_height b) in
  mkRectangle x0 y0 (x1 - x0) (y1 - y0).

(** [merged.remove(overlapping)]: Python's [list.remove] deletes the
    first element equal to its argument.  The argument is the first
    rectangle of [merged] that overlaps [obs], so the first element
    that overlaps [obs] is the one deleted. *)
Fixpoint remove_overlapping (obs : Rectangle) (merged : list Rectangle)
  : list Rectangle :=
  match merged with
  | [] => []
  | m :: rest => if overlaps obs m then rest else m :: remove_overlapping obs rest
  end.

(** [merge_obstacles(obstacles)]: one pass over the obstacles. *)
Fixpoint merge_loop (obstacles merged : list Rectangle) : list Rectangle :=
  match obstacles with
  | [] => merged
  | obs :: rest =>
      match find_overlapping obs merged with
      | Some overlapping =>
          merge_loop rest (remove_overlapping obs merged ++ [union obs overlapping])
      | None => merge_loop rest (merged ++ [obs])
      end
  end.

Definition merge_obstacles (obstacles : list Rectangle) : list Rectangle :=
  merge_loop obstacles [].

(** ** Point validation *)

Fixpoint inside_some_obstacle (expanded_obstacles : list Rectangle) (x y : Q) : bool :=
  match expanded_obstacles with
  | [] => false
  | obstacle :: rest =>
      if contains_point obstacle x y then true
      else inside_some_obstacle rest x y
  end.

(** [is_valid(x, y)] ([is_point_valid] in the README) *)
Definition is_valid (wall : Wall) (expanded_obstacles : list Rectangle)
    (x y : Q) : bool :=
  if negb (Qle_bool 0 x && Qle_bool x (wall_width wall)
           && Qle_bool 0 y && Qle_bool y (wall_height wall))
  then false
  else negb (inside_some_obstacle expanded_obstacles x y).

(** ** Loops

    A [while] loop over a float counter is run on fuel; [None] stands
    for a loop that does not terminate.  Each loop below gets the fuel
    [loop_fuel span step], which is enough whenever [step] is positive
    (lemma [while_loop_terminates]); with a non-positive step and a true
    condition the Python loop runs for ever, and the model gives
    [None]. *)

Fixpoint while_loop {St : Type} (fuel : nat) (cond : Q -> bool) (next : Q -> Q)
    (body : Q -> St -> St) (x : Q) (st : St) : option St :=
  match fuel with
  | O => None
  | S fuel' =>
      if cond x then while_loop fuel' cond next body (next x) (body x st)
      else Some st
  end.

Definition loop_fuel (span step : Q) : nat :=
  S (S (Z.to_nat (Qfloor (span / step)))).

(** [x = a; while x <= b: body(x); x += step] *)
Definition while_le {St : Type} (a b step : Q) (body : Q -> St -> St) (st : St)
  : option St :=
  while_loop (loop_fuel (b - a) step) (fun x => Qle_bool x b)
             (fun x => x + step) body a st.

(** [x = b; while x >= a: body(x); x -= step] *)
Definition while_ge {St : Type} (b a step : Q) (body : Q -> St -> St) (st : St)
  : option St :=
  while_loop (loop_fuel (b - a) step) (fun x => Qle_bool a x)
             (fun x => x - step) body b st.

(** [x = b; while x > a: body(x); x -= step] *)
Definition while_gt {St : Type} (b a step : Q) (body : Q -> St -> St) (st : St)
  : option St :=
  while_loop (loop_fuel (b - a) step) (fun x => Qlt_bool a x)
             (fun x => x - step) body b st.

(** [for item in l: body(item)], where the body may itself diverge. *)
Fixpoint for_each {A St : Type} (l : list A) (body : A -> St -> option St)
    (st : St) : option St :=
  match l with
  | [] => Some st
  | item :: rest =>
      match body item st with
      | Some st' => for_each rest body st'
      | None => None
      end
  end.

(** ** Free segments of a row *)

Definition Segment : Type := (Q * Q)%type.

(** The body of the loop over [segments] for one obstacle. *)
Definition split_segment (obs_expanded : Rectangle) (seg : Segment) : list Segment :=
  let '(start, end_) := seg in
  if Qlt_bool end_ (rect_x obs_expanded)
     || Qlt_bool (rect_x obs_expanded + rect_width obs_expanded) start
  then [(start, end_)]
  else
    (if Qlt_bool start (rect_x obs_expanded)
     then [(start, rect_x obs_expanded)] else [])
    ++ (if Qlt_bool (rect_x obs_expanded + rect_width obs_expanded) end_
        then [(rect_x obs_expanded + rect_width obs_expanded, end_)] else []).

Fixpoint free_segments_loop (y : Q) (obstacles : list Rectangle) (c : Q)
    (segments : list Segment) : list Segment :=
  match obstacles with
  | [] => segments
  | obstacle :: rest =>
      let obs_expanded := expand_obstacle obstacle c in
      if Qle_bool (rect_y obs_expanded) y
         && Qle_bool y (rect_y obs_expanded + rect_height obs_expanded)
      then free_segments_loop y rest c (flat_map (split_segment obs_expanded) segments)
      else free_segments_loop y rest c segments
  end.

(** [get_free_segments_in_row(y, obstacles, clearance)] *)
Definition get_free_segments_in_row (wall : Wall) (y : Q)
    (obstacles : list Rectangle) (c : Q) : list Segment :=
  free_segments_loop y obstacles c [(0, wall_width wall)].

(** ** Zigzag planner *)

Section Zigzag.
Variable wall : Wall.
Variable obstacles : list Rectangle.
Variables spacing_ clearance_ resolution_ : Q.

(** [if is_valid(x, y): points.append((x, y))]; the expanded
    obstacles are those of [expand_obstacles]. *)
Definition append_if_valid (y x : Q) (points : list Point) : list Point :=
  if is_valid wall (expand_obstacles obstacles clearance_) x y
  then points ++ [(x, y)] else points.

(** One row: the body of the loop of [plan_zigzag] up to the change
    of direction. *)
Definition scan_row (y : Q) (direction : Z) (points : list Point)
  : option (list Point) :=
  let segments := get_free_segments_in_row wall y obstacles clearance_ in
  if (direction =? 1)%Z then
    for_each segments
      (fun seg => while_le (fst seg) (snd seg) resolution_ (append_if_valid y))
      points
  else
    for_each (rev segments)
      (fun seg => while_ge (snd seg) (fst seg) resolution_ (append_if_valid y))
      points.

Fixpoint zigzag_loop (fuel : nat) (y : Q) (direction : Z) (points : list Point)
  : option (list Point) :=
  match fuel with
  | O => None
  | S fuel' =>
      if Qlt_bool y (wall_height wall) then
        match scan_row y direction points with
        | Some points' =>
            zigzag_loop fuel' (y + spacing_) (direction * -1)%Z points'
        | None => None
        end
      else Some points
  end.

(** The rows the loop goes through: the value of [y] and of
    [direction] at the start of each iteration. *)
Fixpoint zigzag_rows (fuel : nat) (y : Q) (direction : Z) : list (Q * Z) :=
  match fuel with
  | O => []
  | S fuel' =>
      if Qlt_bool y (wall_height wall)
      then (y, direction) :: zigzag_rows fuel' (y + spacing_) (direction * -1)%Z
      else []
  end.

Definition zigzag_fuel : nat :=
  loop_fuel (wall_height wall - spacing_ / 2) spacing_.

(** [plan_zigzag(wall, obstacles, spacing, clearance, resolution)] *)
Definition plan_zigzag : option (list Point) :=
  zigzag_loop zigzag_fuel (spacing_ / 2) 1%Z [].

End Zigzag.

(** ** Segment test *)

Section Segments.
Variable expanded_obstacles : list Rectangle.
Variables tolerance resolution_ : Q.

(** What [segment_crosses_obstacle] does for one obstacle. *)
Definition segment_crosses (obs : Rectangle) (x1 y1 x2 y2 : Q) : bool :=
  if Qlt_bool (Qabs (y2 - y1)) tolerance then
    intersects_horizontal_segment obs x1 x2 y1
  else if Qlt_bool (Qabs (x2 - x1)) tolerance then
    intersects_vertical_segment obs x1 y1 y2
  else line_segment_intersects_rectangle resolution_ x1 y1 x2 y2 obs.

Fixpoint crosses_any (obstacles : list Rectangle) (x1 y1 x2 y2 : Q) : bool :=
  match obstacles with
  | [] => false
  | obs :: rest =>
      if segment_crosses obs x1 y1 x2 y2 then true
      else crosses_any rest x1 y1 x2 y2
  end.

(** [segment_crosses_obstacle(x1, y1, x2, y2)] *)
Definition segment_crosses_obstacle (x1 y1 x2 y2 : Q) : bool :=
  crosses_any expanded_obstacles x1 y1 x2 y2.

End Segments.

(** ** Spiral planner (README) *)

Section Spiral.
Variable wall : Wall.
Variable obstacles : list Rectangle.
Variables spacing_ clearance_ resolution_ tolerance : Q.

(** Modelled from the spec: [last_point] and [crosses_obstacle] are
    used by [plan_spiral] and defined nowhere in the sources.
    The specification (4.5) checks "the segment from the previous
    accepted point": [last_point] is the last stored point, and there
    is nothing to cross before the first one. *)
Definition crosses_obstacle (points : list Point) (p : Point) : bool :=
  match rev points with
  | [] => false
  | last_point :: _ =>
      segment_crosses_obstacle (expand_obstacles obstacles clearance_)
        tolerance resolution_ (fst last_point) (snd last_point) (fst p) (snd p)
  end.

(** [if is_point_valid(p): if not crosses_obstacle(last_point, p):
    points.append(p)] *)
Definition append_if_safe (p : Point) (points : list Point) : list Point :=
  if is_valid wall (expand_obstacles obstacles clearance_) (fst p) (snd p) then
    if negb (crosses_obstacle points p) then points ++ [p] else points
  else points.

(** The four edges of one layer. *)
Definition spiral_layer (rect : Rectangle) (points : list Point)
  : option (list Point) :=
  let x0 := rect_x rect in
  let y0 := rect_y rect in
  let x1 := rect_x rect + rect_width rect in
  let y1 := rect_y rect + rect_height rect in
  match while_le x0 x1 resolution_ (fun x => append_if_safe (x, y0)) points with
  | None => None
  | Some top_edge =>
  match while_le (y0 + resolution_) y1 resolution_
          (fun y => append_if_safe (x1, y)) top_edge with
  | None => None
  | Some right_edge =>
  match while_ge (x1 - resolution_) x0 resolution_
          (fun x => append_if_safe (x, y1)) right_edge with
  | None => None
  | Some bottom_edge =>
      while_gt (y1 - resolution_) (y0 + resolution_) resolution_
        (fun y => append_if_safe (x0, y)) bottom_edge
  end end end.

Definition layer_rect (offset : Q) : Rectangle :=
  mkRectangle offset offset
              (wall_width wall - 2 * offset) (wall_height wall - 2 * offset).

(** [rect.width <= resolution or rect.height <= resolution] *)
Definition degenerate (rect : Rectangle) : bool :=
  Qle_bool (rect_width rect) resolution_ || Qle_bool (rect_height rect) resolution_.

Fixpoint spiral_loop (fuel : nat) (offset : Q) (points : list Point)
  : option (list Point) :=
  match fuel with
  | O => None
  | S fuel' =>
      if Qlt_bool offset (Qmax (wall_width wall) (wall_height wall)) then
        let rect := layer_rect offset in
        if degenerate rect then Some points
        else
          match spiral_layer rect points with
          | Some points' => spiral_loop fuel' (offset + spacing_) points'
          | None => None
          end
      else Some points
  end.

(** The offsets of the layers the loop traces, in order. *)
Fixpoint spiral_offsets (fuel : nat) (offset : Q) : list Q :=
  match fuel with
  | O => []
  | S fuel' =>
      if Qlt_bool offset (Qmax (wall_width wall) (wall_height wall)) then
        if degenerate (layer_rect offset) then []
        else offset :: spiral_offsets fuel' (offset + spacing_)
      else []
  end.

Definition spiral_fuel : nat :=
  loop_fuel (Qmax (wall_width wall) (wall_height wall) - spacing_ / 2) spacing_.

(** [plan_spiral()] *)
Definition plan_spiral : option (list Point) :=
  spiral_loop spiral_fuel (spacing_ / 2) [].

(** The loop as section 4.5 words it: [while offset < min(W,H)/2],
    leaving at the first layer with [width <= resolution] or
    [height <= resolution]. *)
Fixpoint spec_spiral_offsets (fuel : nat) (offset : Q) : list Q :=
  match fuel with
  | O => []
  | S fuel' =>
      if Qlt_bool offset (Qmin (wall_width wall) (wall_height wall) / 2) then
        if degenerate (layer_rect offset) then []
        else offset :: spec_spiral_offsets fuel' (offset + spacing_)
      else []
  end.

(** The loop of the algorithm document's [plan_spiral]:
    [while offset < min(W,H)/2], leaving when
    [rect.width <= 0 or rect.height <= 0]. *)
Fixpoint design_spiral_offsets (fuel : nat) (offset : Q) : list Q :=
  match fuel with
  | O => []
  | S fuel' =>
      if Qlt_bool offset (Qmin (wall_width wall) (wall_height wall) / 2) then
        let rect := layer_rect offset in
        if Qle_bool (rect_width rect) 0 || Qle_bool (rect_height rect) 0 then []
        else offset :: design_spiral_offsets fuel' (offset + spacing_)
      else []
  end.

End Spiral.

(** ** Path validation *)

Section Validation.
Variable wall : Wall.
Variable expanded_obstacles : list Rectangle.
Variables tolerance resolution_ : Q.

(** The first loop of [validate_path_safety]. *)
Fixpoint check_points (points : list Point) : Result unit :=
  match points with
  | [] => Ok tt
  | point :: rest =>
      if negb (is_valid wall expanded_obstacles (fst point) (snd point))
      then Raise (PointInsideObstacle point)
      else check_points rest
  end.

(** The second loop: [points] holds [points[i:]]. *)
Fixpoint check_segments (i : nat) (points : list Point) : Result unit :=
  match points with
  | p1 :: ((p2 :: _) as rest) =>
      if segment_crosses_obstacle expanded_obstacles tolerance resolution_
           (fst p1) (snd p1) (fst p2) (snd p2)
      then Raise (SegmentCrossesObstacle i)
      else check_segments (S i) rest
  | _ => Ok tt
  end.

(** [validate_path_safety(points)] *)
Definition validate_path_safety (points : list Point) : Result unit :=
  match check_points points with
  | Raise e => Raise e
  | Ok _ => check_segments 0 points
  end.

End Validation.

(** ** Edge cases *)

(** [if obstacle.width >= wall.width or obstacle.height >= wall.height:
    raise ValueError("Obstacle exceeds wall dimensions")], for each
    obstacle. *)
Fixpoint check_obstacles (wall : Wall) (obstacles : list Rectangle) : Result unit :=
  match obstacles with
  | [] => Ok tt
  | obstacle :: rest =>
      if Qle_bool (wall_width wall) (rect_width obstacle)
         || Qle_bool (wall_height wall) (rect_height obstacle)
      then Raise ObstacleExceedsWall
      else check_obstacles wall rest
  end.

(** [if len(points) == 0: raise ValueError("No valid coverage path ...")] *)
Definition check_not_empty (points : list Point) : Result unit :=
  if (length points =? 0)%nat then Raise NoValidPath else Ok tt.

(** The constant of the algorithm document. *)
Definition MAX_POINTS : nat := 10000.

(** [if len(points) > MAX_POINTS: raise ValueError("Trajectory too
    large ...")]; the maximum is configurable
    ([MAX_TRAJECTORY_POINTS]). *)
Definition check_point_count (max_points : nat) (points : list Point) : Result unit :=
  if (max_points <? length points)%nat
  then Raise (TrajectoryTooLarge (length points)) else Ok tt.

(** ** Metrics *)

(** [euclidean_distance(p1, p2)] *)
Definition euclidean_distance (p1 p2 : Point) : R :=
  sqrt (Rsqr (Q2R (fst p2) - Q2R (fst p1)) + Rsqr (Q2R (snd p2) - Q2R (snd p1))).

(** [calculate_path_length(points)]: the loop over
    [i in range(len(points) - 1)] adding to [total_length]. *)
Definition calculate_path_length (points : list Point) : R :=
  fold_left
    (fun total_length i =>
       let p1 := nth i points (0, 0) in
       let p2 := nth (i + 1) points (0, 0) in
       (total_length + euclidean_distance p1 p2)%R)
    (seq 0 (length points - 1)) 0%R.

(** [estimate_duration(path_length, robot_speed)] *)
Definition estimate_duration (path_length robot_speed : R) : R :=
  (path_length / robot_speed)%R.

Record Trajectory : Type := mkTrajectory {
  points : list Point;
  length_m : R;
  duration_s : R;
  point_count : nat
}.

(** Modelled from the spec: the code that fills the trajectory record
    is not in the sources; section 4.7 gives the three fields. *)
Definition make_trajectory (settings : PlannerSettings) (pts : list Point)
  : Trajectory :=
  let path_length := calculate_path_length pts in
  mkTrajectory pts path_length
               (estimate_duration path_length (Q2R (speed settings)))
               (length pts).

(** The sum section 4.7 writes: the distances of all consecutive
    pairs. *)
Fixpoint sum_consecutive_distances (pts : list Point) : R :=
  match pts with
  | p1 :: ((p2 :: _) as rest) =>
      (euclidean_distance p1 p2 + sum_consecutive_distances rest)%R
  | _ => 0%R
  end.

(** ** The planning call *)

Section Plan.
Variable wall : Wall.
Variable obstacles : list Rectangle.
Variable settings : PlannerSettings.
Variable max_points : nat.
Variable tolerance : Q.

(** The obstacles the planners work on: "Merge overlapping obstacles
    before planning". *)
Definition planning_obstacles : list Rectangle := merge_obstacles obstacles.

Definition expanded_obstacles : list Rectangle :=
  expand_obstacles planning_obstacles (clearance settings).

Definition generate : option (list Point) :=
  match pattern settings with
  | zigzag =>
      plan_zigzag wall planning_obstacles (spacing settings)
                  (clearance settings) (resolution settings)
  | spiral =>
      plan_spiral wall planning_obstacles (spacing settings)
                  (clearance settings) (resolution settings) tolerance
  end.

(** The checks a generated point list goes through: the edge cases
    "No Valid Path" and "Excessive Point Count" in the order of the
    algorithm document, then the "final validation"
    [validate_path_safety]. *)
Definition accept (pts : list Point) : Result (list Point) :=
  match check_not_empty pts with
  | Raise e => Raise e
  | Ok _ =>
  match check_point_count max_points pts with
  | Raise e => Raise e
  | Ok _ =>
  match validate_path_safety wall expanded_obstacles tolerance
          (resolution settings) pts with
  | Raise e => Raise e
  | Ok _ => Ok pts
  end end end.

(** Modelled from the spec: the entry point of the planner (the
    service that the API calls) is not in the sources.  Section 2
    gives the order: obstacle handling, one of the two planners, the
    checks on the generated points, the metrics.  [None] stands for a
    call that does not return. *)
Definition plan_points : option (Result (list Point)) :=
  match check_obstacles wall obstacles with
  | Raise e => Some (Raise e)
  | Ok _ =>
      match generate with
      | None => None
      | Some pts => Some (accept pts)
      end
  end.

Definition plan : option (Result Trajectory) :=
  match plan_points with
  | None => None
  | Some (Raise e) => Some (Raise e)
  | Some (Ok pts) => Some (Ok (make_trajectory settings pts))
  end.

End Plan.

(** ** Front end (App.tsx) *)

Module App.

(** [WallCreateRequest] *)
Record WallCreateRequest : Type := mkWallCreateRequest {
  req_width : Q;
  req_height : Q;
  req_obstacles : list Rectangle
}.

(** [Wall], as the server returns it. *)
Record WallRecord : Type := mkWallRecord {
  wall_id : nat;
  wall_data : WallCreateRequest
}.

(** [TrajectoryDetail]: what the component reads of it. *)
Record TrajectoryDetail : Type := mkTrajectoryDetail {
  trajectory_id : nat;
  planner_settings : PlannerSettings;
  trajectory_points : list Point
}.

(** The calls of [api]; a call throws ([inl message]) or returns. *)
Record Api : Type := mkApi {
  createWall : WallCreateRequest -> string + WallRecord;
  createPlan : nat -> PlannerSettings -> string + nat;
  getTrajectory : nat -> bool -> string + TrajectoryDetail
}.

(** The requests the component issues. *)
Inductive Request : Type :=
  | CreateWall (wallData : WallCreateRequest)
  | CreatePlan (wall : nat) (settings : PlannerSettings)
  | GetTrajectory (trajectory : nat) (include_points : bool).

(** The [useState] cells of [App]. *)
Record State : Type := mkState {
  isGenerating : bool;
  errorMessage : option string;
  activeWall : option WallRecord;
  activePath : option TrajectoryDetail;
  selectedPattern : Pattern
}.

Definition initial : State := mkState false None None None zigzag.

(** [createWallAndPath]: the settings of the plan request. *)
Definition plannerConfig_create (selectedPattern : Pattern) : PlannerSettings :=
  let toolSpacing := match selectedPattern with spiral => 0.05 | zigzag => 0.2 end in
  mkSettings selectedPattern toolSpacing 0.1 0.02 0.01.

(** The [onClick] handler of the Regenerate button: the same lines
    again. *)
Definition plannerConfig_regenerate (selectedPattern : Pattern) : PlannerSettings :=
  let toolSpacing := match selectedPattern with spiral => 0.05 | zigzag => 0.2 end in
  mkSettings selectedPattern toolSpacing 0.1 0.02 0.01.

(** The two calls both handlers end with: [createPlan], then
    [getTrajectory(pathResult.id, true)] and [setActivePath]; a thrown
    error goes to [catch]; [finally] clears [isGenerating]. *)
Definition request_plan (api : Api) (st : State) (wall : WallRecord)
    (plannerConfig : PlannerSettings) : State * list Request :=
  match createPlan api (wall_id wall) plannerConfig with
  | inl err =>
      (mkState false (Some err) (activeWall st) (activePath st) (selectedPattern st),
       [CreatePlan (wall_id wall) plannerConfig])
  | inr pathResult =>
      match getTrajectory api pathResult true with
      | inl err =>
          (mkState false (Some err) (activeWall st) (activePath st)
                   (selectedPattern st),
           [CreatePlan (wall_id wall) plannerConfig; GetTrajectory pathResult true])
      | inr fullPath =>
          (mkState false None (activeWall st) (Some fullPath) (selectedPattern st),
           [CreatePlan (wall_id wall) plannerConfig; GetTrajectory pathResult true])
      end
  end.

(** [createWallAndPath(wallData)] *)
Definition createWallAndPath (api : Api) (st : State) (wallData : WallCreateRequest)
  : State * list Request :=
  match createWall api wallData with
  | inl err =>
      (mkState false (Some err) (activeWall st) (activePath st) (selectedPattern st),
       [CreateWall wallData])
  | inr newWall =>
      let st1 := mkState true None (Some newWall) (activePath st) (selectedPattern st) in
      let '(st2, requests) :=
        request_plan api st1 newWall (plannerConfig_create (selectedPattern st)) in
      (st2, CreateWall wallData :: requests)
  end.

(** The [onClick] handler of the Regenerate button, which is rendered
    only when there is an active wall and an active path. *)
Definition regenerate (api : Api) (st : State) : State * list Request :=
  match activeWall st, activePath st with
  | Some wall, Some _ =>
      request_plan api st wall (plannerConfig_regenerate (selectedPattern st))
  | _, _ => (st, [])
  end.

(** What the user can do: choose a pattern in the header, submit the
    wall form (shown while there is no active path), press Regenerate
    or Create New Plan (shown while there is one). *)
Inductive Event : Type :=
  | SelectPattern (p : Pattern)
  | SubmitWallForm (wallData : WallCreateRequest)
  | ClickRegenerate
  | ClickCreateNewPlan.

Definition step (api : Api) (st : State) (ev : Event) : State * list Request :=
  match ev with
  | SelectPattern p =>
      (mkState (isGenerating st) (errorMessage st) (activeWall st) (activePath st) p,
       [])
  | SubmitWallForm wallData =>
      match activePath st with
      | None => createWallAndPath api st wallData
      | Some _ => (st, [])
      end
  | ClickRegenerate => regenerate api st
  | ClickCreateNewPlan =>
      match activeWall st, activePath st with
      | Some _, Some _ =>
          (mkState (isGenerating st) (errorMessage st) None None (selectedPattern st),
           [])
      | _, _ => (st, [])
      end
  end.

Fixpoint run (api : Api) (st : State) (events : list Event) : State * list Request :=
  match events with
  | [] => (st, [])
  | ev :: rest =>
      let '(st1, requests1) := step api st ev in
      let '(st2, requests2) := run api st1 rest in
      (st2, requests1 ++ requests2)
  end.

(** The settings the claim fixes. *)
Definition fixed_settings (settings : PlannerSettings) : Prop :=
  speed settings = 0.1 /\ clearance settings = 0.02 /\ resolution settings = 0.01
  /\ spacing settings = match pattern settings with spiral => 0.05 | zigzag => 0.2 end.

Definition plans_with (p : Pattern) (request : Request) : Prop :=
  match request with
  | CreatePlan _ settings => pattern settings = p /\ fixed_settings settings
  | _ => True
  end.

Definition plans_with_fixed_settings (request : Request) : Prop :=
  match request with
  | CreatePlan _ settings => fixed_settings settings
  | _ => True
  end.

End App.

(** ** Auxiliary notions for the statements *)

(** One rectangle lies inside another. *)
Definition rect_included (a b : Rectangle) : Prop :=
  rect_x b <= rect_x a /\ rect_x a + rect_width a <= rect_x b + rect_width b
  /\ rect_y b <= rect_y a /\ rect_y a + rect_height a <= rect_y b + rect_height b.

(** A rectangle lies inside one of a list. *)
Definition covered (o : Rectangle) (l : list Rectangle) : Prop :=
  exists m, In m l /\ rect_included o m.

(** Every point of a list passes [is_valid]. *)
Definition all_valid (wall : Wall) (expanded : list Rectangle) (pts : list Point)
  : Prop :=
  forall p, In p pts -> is_valid wall expanded (fst p) (snd p) = true.

(** The expanded obstacle as the specification words it: inflated by
    [c] on all sides, then clamped to the wall. *)
Definition clamped_obstacle (wall : Wall) (obstacle : Rectangle) (c : Q) : Rectangle :=
  let x0 := Qmax 0 (rect_x obstacle - c) in
  let y0 := Qmax 0 (rect_y obstacle - c) in
  let x1 := Qmin (wall_width wall) (rect_x obstacle + rect_width obstacle + c) in
  let y1 := Qmin (wall_height wall) (rect_y obstacle + rect_height obstacle + c) in
  mkRectangle x0 y0 (x1 - x0) (y1 - y0).

(** Points with equal coordinates (as rationals). *)
Definition same_point (p q : Point) : Prop := fst p == fst q /\ snd p == snd q.

Definition same_points (l1 l2 : list Point) : Prop := Forall2 same_point l1 l2.

(** Scenario A of the specification. *)
Definition scenario_A_wall : Wall := mkWall 5 5.

Definition scenario_A_settings : PlannerSettings := mkSettings zigzag 0.2 0.1 0.02 0.01.

(** Row [k] of scenario A: 501 points [x = i/100], [i = 0 .. 500], at
    [y = 0.1 + 0.2 k], from left to right when [k] is even and from
    right to left when it is odd. *)
Definition scenario_A_row (k : nat) : list Point :=
  map (fun i => (inject_Z (Z.of_nat i) * 0.01, 0.1 + inject_Z (Z.of_nat k) * 0.2))
      (if Nat.even k then seq 0 501 else rev (seq 0 501)).

(** Row [k] of the planner and row [k] of the scenario. *)
Definition scenario_A_row_ok (row : Q * Z) (k : nat) : Prop :=
  fst row == 0.1 + inject_Z (Z.of_nat k) * 0.2
  /\ snd row = (if Nat.even k then 1 else -1)%Z
  /\ 0 <= fst row /\ fst row <= 5.

(** The values a loop counter takes: [x], [next x], ... *)
Fixpoint iterate (next : Q -> Q) (n : nat) (x : Q) : Q :=
  match n with
  | O => x
  | S n' => iterate next n' (next x)
  end.

Fixpoint iterates (next : Q -> Q) (x : Q) (n : nat) : list Q :=
  match n with
  | O => []
  | S n' => x :: iterates next (next x) n'
  end.

(** The points of a row of [n] steps on a wall without obstacles. *)
Definition full_row (wall : Wall) (r : Q) (n : nat) (row : Q * Z) : list Point :=
  map (fun x => (x, fst row))
      (if (snd row =? 1)%Z
       then iterates (fun x => x + r) 0 n
       else iterates (fun x => x - r) (wall_width wall) n).

(** ** More of the planner documents *)

(** The README's [plan_zigzag]: the same loop with a two-valued
    direction. *)
Module Readme.

Inductive Direction : Type := LEFT_TO_RIGHT | RIGHT_TO_LEFT.

Definition toggle (direction : Direction) : Direction :=
  match direction with
  | LEFT_TO_RIGHT => RIGHT_TO_LEFT
  | RIGHT_TO_LEFT => LEFT_TO_RIGHT
  end.

Section Zigzag.
Variable wall : Wall.
Variable expanded_obstacles : list Rectangle.
(** [find_free_segments(y)] is not in the sources: a parameter. *)
Variable find_free_segments : Q -> list Segment.
Variables spacing_ resolution_ : Q.

(** [if is_point_valid(x, y): points.append((x, y))] *)
Definition append_if_point_valid (y x : Q) (points : list Point) : list Point :=
  if is_valid wall expanded_obstacles x y then points ++ [(x, y)] else points.

(** The body of [for segment in ...]. *)
Definition scan_segment (y : Q) (direction : Direction) (segment : Segment)
    (points : list Point) : option (list Point) :=
  let '(x_start, x_end) := segment in
  match direction with
  | LEFT_TO_RIGHT => while_le x_start x_end resolution_ (append_if_point_valid y) points
  | RIGHT_TO_LEFT => while_ge x_end x_start resolution_ (append_if_point_valid y) points
  end.

Fixpoint zigzag_loop (fuel : nat) (y : Q) (direction : Direction)
    (points : list Point) : option (list Point) :=
  match fuel with
  | O => None
  | S fuel' =>
      if Qlt_bool y (wall_height wall) then
        let segments := find_free_segments y in
        match for_each (match direction with
                        | LEFT_TO_RIGHT => segments
                        | RIGHT_TO_LEFT => rev segments
                        end)
                       (scan_segment y direction) points with
        | Some points' => zigzag_loop fuel' (y + spacing_) (toggle direction) points'
        | None => None
        end
      else Some points
  end.

(** [plan_zigzag()] *)
Definition plan_zigzag : option (list Point) :=
  zigzag_loop (loop_fuel (wall_height wall - spacing_ / 2) spacing_)
              (spacing_ / 2) LEFT_TO_RIGHT [].

End Zigzag.

(** [isJump(p1, p2)] of the README ("Challenge 1"). *)
Definition isJump (p1 p2 : Point) : bool :=
  let dy := Qabs (snd p2 - snd p1) in
  let dx := Qabs (fst p2 - fst p1) in
  Qlt_bool 0.01 dy || Qlt_bool 0.3 dx || (Qlt_bool 0.01 dx && Qlt_bool 0.01 dy).

End Readme.

(** ** Polyline compression (algorithm document) *)

Section Compression.
(** [are_collinear(prev, curr, next, tolerance)] is not in the
    sources: a parameter. *)
Variable are_collinear : Point -> Point -> Point -> Q -> bool.
Variable tolerance : Q.

(** The body of the loop over [i in range(1, len(points) - 1)]. *)
Definition compress_step (points compressed : list Point) (i : nat) : list Point :=
  let prev := last compressed (0, 0) in
  let curr := nth i points (0, 0) in
  let next := nth (i + 1) points (0, 0) in
  if negb (are_collinear prev curr next tolerance)
  then compressed ++ [curr] else compressed.

(** [compress_path(points, tolerance)] *)
Definition compress_path (points : list Point) : list Point :=
  if (length points <? 3)%nat then points
  else
    let compressed :=
      fold_left (compress_step points) (seq 1 (length points - 2))
                [nth 0 points (0, 0)] in
    compressed ++ [last points (0, 0)].

(** The loop, read along the list: [rest] holds [points[i:]]. *)
Fixpoint compress_middle (compressed rest : list Point) : list Point :=
  match rest with
  | curr :: ((next :: _) as rest') =>
      compress_middle
        (if negb (are_collinear (last compressed (0, 0)) curr next tolerance)
         then compressed ++ [curr] else compressed)
        rest'
  | _ => compressed
  end.

End Compression.

(** Elements of the second list, in its order. *)
Inductive subsequence {A : Type} : list A -> list A -> Prop :=
  | subsequence_nil : subsequence [] []
  | subsequence_skip x l1 l2 : subsequence l1 l2 -> subsequence l1 (x :: l2)
  | subsequence_keep x l1 l2 : subsequence l1 l2 -> subsequence (x :: l1) (x :: l2).

(** ** Notions for the free segments *)

(** Segments between [lo] and [hi], each with [start < end], none
    starting before the one before it ends. *)
Fixpoint chain (lo : Q) (segments : list Segment) (hi : Q) : Prop :=
  match segments with
  | [] => True
  | seg :: rest =>
      lo <= fst seg /\ fst seg < snd seg /\ snd seg <= hi /\ chain (snd seg) rest hi
  end.

(** ** Trajectory view (CanvasViz.tsx) *)

Module CanvasViz.

Definition padding : Q := 40.
Definition canvasWidth : Q := 800.
Definition canvasHeight : Q := 600.

Definition scale (wall : Wall) : Q :=
  Qmin ((canvasWidth - 2 * padding) / wall_width wall)
       ((canvasHeight - 2 * padding) / wall_height wall).

(** [toCanvas(x, y)] *)
Definition toCanvas (wall : Wall) (x y : Q) : Q * Q :=
  (padding + x * scale wall, canvasHeight - padding - y * scale wall).

(** [isJump(p1, p2)] *)
Definition isJump (p1 p2 : Point) : bool :=
  let dx := Qabs (fst p2 - fst p1) in
  let dy := Qabs (snd p2 - snd p1) in
  let rowSpacing := 0.2 in
  Qlt_bool 0.01 dy || Qlt_bool (rowSpacing * 1.5) dx
  || (Qlt_bool 0.05 dx && Qlt_bool 0.001 dy).

(** The playback state: [currentIndex] and [playing]; [len] is
    [trajectory.points.length]. *)
Record Playback : Type := mkPlayback {
  currentIndex : Z;
  playing : bool
}.

Inductive Control : Type :=
  | Frame                (* [animate], when enough time has passed *)
  | ResetToStart         (* [setCurrentIndex(0)] *)
  | TogglePlaying        (* [setPlaying(!playing)] *)
  | JumpToEnd            (* [setCurrentIndex(len - 1)], also the 100% button *)
  | QuickJump (fraction : Q)
                         (* [setCurrentIndex(Math.floor((len - 1) * fraction))] *).

Definition control (len : Z) (st : Playback) (c : Control) : Playback :=
  match c with
  | Frame =>
      if (len - 1 <=? currentIndex st)%Z
      then mkPlayback (currentIndex st) false
      else mkPlayback (currentIndex st + 1) (playing st)
  | ResetToStart => mkPlayback 0 (playing st)
  | TogglePlaying => mkPlayback (currentIndex st) (negb (playing st))
  | JumpToEnd => mkPlayback (len - 1) (playing st)
  | QuickJump fraction =>
      mkPlayback (Qfloor (inject_Z (len - 1) * fraction)) (playing st)
  end.

(** The quick-jump buttons of the view. *)
Definition quick_jump_button (c : Control) : Prop :=
  match c with
  | QuickJump fraction => fraction = 0.25 \/ fraction = 0.5 \/ fraction = 0.75
  | _ => True
  end.

Definition initial : Playback := mkPlayback 0 false.

End CanvasViz.

(** ** Wall form (WallForm.tsx) *)

Module WallForm.

(** [addNewObstacle]: [[...obstacleList, {x: 0, y: 0, width: 0.5, height: 0.5}]] *)
Definition addNewObstacle (obstacleList : list Rectangle) : list Rectangle :=
  obstacleList ++ [mkRectangle 0 0 0.5 0.5].

(** [obstacleList.filter((_, i) => i !== idx)], with [i] counted from
    [start]. *)
Fixpoint filter_index (start idx : nat) (l : list Rectangle) : list Rectangle :=
  match l with
  | [] => []
  | obs :: rest =>
      if (start =? idx)%nat then filter_index (S start) idx rest
      else obs :: filter_index (S start) idx rest
  end.

(** [deleteObstacle(idx)] *)
Definition deleteObstacle (idx : nat) (obstacleList : list Rectangle)
  : list Rectangle :=
  filter_index 0 idx obstacleList.

(** [submitForm]: what it hands to [onSubmit]; the two numbers are the
    parsed text fields. *)
Definition submitForm (wallWidth wallHeight : Q) (obstacleList : list Rectangle)
  : App.WallCreateRequest :=
  App.mkWallCreateRequest wallWidth wallHeight obstacleList.

End WallForm.

(** ** Notions for the validation *)

(** No two consecutive points of the list are joined by a segment that
    fails the segment test. *)
Fixpoint consecutive_clear (expanded : list Rectangle) (tolerance res : Q)
    (pts : list Point) : Prop :=
  match pts with
  | p1 :: ((p2 :: _) as rest) =>
      segment_crosses_obstacle expanded tolerance res
        (fst p1) (snd p1) (fst p2) (snd p2) = false
      /\ consecutive_clear expanded tolerance res rest
  | _ => True
  end.

(** ** Notions for the rows of a path *)

(** Every two consecutive elements of the list are related. *)
Fixpoint consecutive {A : Type} (R : A -> A -> Prop) (l : list A) : Prop :=
  match l with
  | a :: ((b :: _) as rest) => R a b /\ consecutive R rest
  | _ => True
  end.

(** Two points of the same row, or the second at least [s] higher. *)
Definition same_row_or_above (s : Q) (p q : Point) : Prop :=
  snd p == snd q \/ snd p + s <= snd q.

(** ** Adaptive resolution (algorithm document, optimisation 3) *)

Section AdaptiveResolution.
(** [min_distance_to_obstacles] is not part of the document. *)
Variable min_distance_to_obstacles : Q -> Q -> list Rectangle -> Q.

(** [adaptive_resolution(x, y, obstacles)] *)
Definition adaptive_resolution (x y : Q) (obstacles : list Rectangle) : Q :=
  let min_dist := min_distance_to_obstacles x y obstacles in
  if Qlt_bool min_dist 0.1 then 0.005
  else if Qlt_bool min_dist 0.5 then 0.01
  else 0.02.

End AdaptiveResolution.

(** ** Notions for the states of the application *)

(** A trajectory is shown only together with its wall, and no request
    is pending. *)
Definition settled (st : App.State) : Prop :=
  App.isGenerating st = false
  /\ (App.activePath st <> None -> App.activeWall st <> None).

(** * Properties *)

(** ** Comparisons *)

Lemma Qlt_bool_iff (a b : Q) : Qlt_bool a b = true <-> a < b.
Proof.
  unfold Qlt_bool. rewrite negb_true_iff.
  split; intro H.
  - apply Qnot_le_lt. intro Hle. apply Qle_bool_iff in Hle. congruence.
  - destruct (Qle_bool b a) eqn:E; [|reflexivity].
    apply Qle_bool_iff in E. exfalso. apply (Qlt_not_le _ _ H E).
Qed.

Lemma Qle_bool_false (a b : Q) : Qle_bool a b = false <-> b < a.
Proof.
  rewrite <- Qlt_bool_iff. unfold Qlt_bool.
  destruct (Qle_bool a b); simpl; split; congruence.
Qed.

Lemma Qlt_bool_false (a b : Q) : Qlt_bool a b = false <-> b <= a.
Proof.
  unfold Qlt_bool. rewrite negb_false_iff. apply Qle_bool_iff.
Qed.

(** Turns every boolean comparison of the context and goal into its
    proposition, for [lra]. *)
Ltac qbool :=
  repeat match goal with
    | H : andb _ _ = true |- _ => apply andb_true_iff in H; destruct H
    | H : orb _ _ = false |- _ => apply orb_false_iff in H; destruct H
    | H : negb _ = true |- _ => apply negb_true_iff in H
    | H : negb _ = false |- _ => apply negb_false_iff in H
    | H : Qle_bool _ _ = true |- _ => apply Qle_bool_iff in H
    | H : Qle_bool _ _ = false |- _ => apply Qle_bool_false in H
    | H : Qlt_bool _ _ = true |- _ => apply Qlt_bool_iff in H
    | H : Qlt_bool _ _ = false |- _ => apply Qlt_bool_false in H
    end.

(** ** The loops terminate *)

Lemma while_loop_step {St : Type} fuel cond next (body : Q -> St -> St) x st :
  while_loop (S fuel) cond next body x st =
  if cond x then while_loop fuel cond next body (next x) (body x st) else Some st.
Proof. reflexivity. Qed.

Lemma inject_Z_succ (n : nat) :
  inject_Z (Z.of_nat (S n)) == inject_Z (Z.of_nat n) + 1.
Proof. rewrite Nat2Z.inj_succ. unfold Z.succ. rewrite inject_Z_plus. reflexivity. Qed.

Lemma while_up_terminates {St : Type} cond (body : Q -> St -> St) (b step : Q) :
  0 < step ->
  (forall x, cond x = true -> x <= b) ->
  forall fuel x st,
    b - x < inject_Z (Z.of_nat fuel) * step ->
    exists st', while_loop (S fuel) cond (fun x => x + step) body x st = Some st'.
Proof.
  intros Hstep Hcond. induction fuel as [|fuel IH]; intros x st Hfuel.
  - rewrite while_loop_step. destruct (cond x) eqn:E.
    + apply Hcond in E. change (inject_Z (Z.of_nat 0)) with 0 in Hfuel. lra.
    + eexists; reflexivity.
  - rewrite while_loop_step. destruct (cond x) eqn:E.
    + apply IH. rewrite inject_Z_succ in Hfuel. lra.
    + eexists; reflexivity.
Qed.

Lemma while_down_terminates {St : Type} cond (body : Q -> St -> St) (a step : Q) :
  0 < step ->
  (forall x, cond x = true -> a <= x) ->
  forall fuel x st,
    x - a < inject_Z (Z.of_nat fuel) * step ->
    exists st', while_loop (S fuel) cond (fun x => x - step) body x st = Some st'.
Proof.
  intros Hstep Hcond. induction fuel as [|fuel IH]; intros x st Hfuel.
  - rewrite while_loop_step. destruct (cond x) eqn:E.
    + apply Hcond in E. change (inject_Z (Z.of_nat 0)) with 0 in Hfuel. lra.
    + eexists; reflexivity.
  - rewrite while_loop_step. destruct (cond x) eqn:E.
    + apply IH. rewrite inject_Z_succ in Hfuel. lra.
    + eexists; reflexivity.
Qed.

Lemma loop_fuel_enough (span step : Q) :
  0 < step ->
  exists n, loop_fuel span step = S n /\ span < inject_Z (Z.of_nat n) * step.
Proof.
  intro Hstep. unfold loop_fuel.
  exists (S (Z.to_nat (Qfloor (span / step)))). split; [reflexivity|].
  assert (Hq : span / step < inject_Z (Z.of_nat (S (Z.to_nat (Qfloor (span / step)))))).
  { eapply Qlt_le_trans; [apply Qlt_floor|].
    rewrite <- Zle_Qle. lia. }
  apply (Qmult_lt_compat_r _ _ step Hstep) in Hq.
  assert (Hd : span / step * step == span) by (field; lra).
  lra.
Qed.

Lemma while_le_terminates {St : Type} a b step (body : Q -> St -> St) st :
  0 < step -> exists st', while_le a b step body st = Some st'.
Proof.
  intro Hstep. unfold while_le.
  destruct (loop_fuel_enough (b - a) step Hstep) as (n & -> & Hn).
  apply while_up_terminates with (b := b); auto.
  intros x Hx. qbool. exact Hx.
Qed.

Lemma while_ge_terminates {St : Type} b a step (body : Q -> St -> St) st :
  0 < step -> exists st', while_ge b a step body st = Some st'.
Proof.
  intro Hstep. unfold while_ge.
  destruct (loop_fuel_enough (b - a) step Hstep) as (n & -> & Hn).
  apply while_down_terminates with (a := a); auto.
  intros x Hx. qbool. exact Hx.
Qed.

Lemma while_gt_terminates {St : Type} b a step (body : Q -> St -> St) st :
  0 < step -> exists st', while_gt b a step body st = Some st'.
Proof.
  intro Hstep. unfold while_gt.
  destruct (loop_fuel_enough (b - a) step Hstep) as (n & -> & Hn).
  apply while_down_terminates with (a := a); auto.
  intros x Hx. qbool. lra.
Qed.

Lemma for_each_terminates {A St : Type} (l : list A) (body : A -> St -> option St) :
  (forall item st, exists st', body item st = Some st') ->
  forall st, exists st', for_each l body st = Some st'.
Proof.
  intro Hbody. induction l as [|item rest IH]; intro st; simpl.
  - eexists; reflexivity.
  - destruct (Hbody item st) as (st' & ->). apply IH.
Qed.

(** ** Loop invariants *)

Lemma while_loop_invariant {St : Type} (P : St -> Prop) cond next
    (body : Q -> St -> St) :
  (forall x st, cond x = true -> P st -> P (body x st)) ->
  forall fuel x st st',
    P st -> while_loop fuel cond next body x st = Some st' -> P st'.
Proof.
  intro Hbody. induction fuel as [|fuel IH]; intros x st st' HP Hrun.
  - discriminate.
  - rewrite while_loop_step in Hrun. destruct (cond x) eqn:E.
    + eapply IH; [|exact Hrun]. auto.
    + injection Hrun as <-. exact HP.
Qed.

Lemma for_each_invariant {A St : Type} (P : St -> Prop)
    (body : A -> St -> option St) (l : list A) :
  (forall item st st', In item l -> P st -> body item st = Some st' -> P st') ->
  forall st st', P st -> for_each l body st = Some st' -> P st'.
Proof.
  induction l as [|item rest IH]; intros Hbody st st' HP Hrun; simpl in Hrun.
  - injection Hrun as <-. exact HP.
  - destruct (body item st) as [st1|] eqn:E; [|discriminate].
    eapply IH; [| |exact Hrun].
    + intros i s s' Hin. apply Hbody. right. exact Hin.
    + eapply Hbody; [left; reflexivity|exact HP|exact E].
Qed.

(** ** The zigzag planner *)

Section ZigzagFacts.
Variable wall : Wall.
Variable obstacles : list Rectangle.
Variables s c r : Q.
Hypothesis spacing_positive : 0 < s.
Hypothesis resolution_positive : 0 < r.

Lemma scan_row_terminates y direction pts :
  exists pts', scan_row wall obstacles c r y direction pts = Some pts'.
Proof.
  unfold scan_row. destruct (direction =? 1)%Z.
  - apply for_each_terminates. intros seg st. now apply while_le_terminates.
  - apply for_each_terminates. intros seg st. now apply while_ge_terminates.
Qed.

Lemma zigzag_loop_terminates fuel :
  forall y direction pts,
    wall_height wall - y < inject_Z (Z.of_nat fuel) * s ->
    exists out, zigzag_loop wall obstacles s c r (S fuel) y direction pts = Some out.
Proof.
  induction fuel as [|fuel IH]; intros y direction pts Hfuel.
  - simpl. destruct (Qlt_bool y (wall_height wall)) eqn:E.
    + qbool. change (inject_Z (Z.of_nat 0)) with 0 in Hfuel. lra.
    + eexists; reflexivity.
  - change (zigzag_loop wall obstacles s c r (S (S fuel)) y direction pts)
      with (if Qlt_bool y (wall_height wall) then
              match scan_row wall obstacles c r y direction pts with
              | Some pts' =>
                  zigzag_loop wall obstacles s c r (S fuel) (y + s)
                              (direction * -1)%Z pts'
              | None => None
              end
            else Some pts).
    destruct (Qlt_bool y (wall_height wall)) eqn:E.
    + destruct (scan_row_terminates y direction pts) as (pts' & ->).
      apply IH. rewrite inject_Z_succ in Hfuel. lra.
    + eexists; reflexivity.
Qed.

Lemma plan_zigzag_terminates :
  exists pts, plan_zigzag wall obstacles s c r = Some pts.
Proof.
  unfold plan_zigzag, zigzag_fuel.
  destruct (loop_fuel_enough (wall_height wall - s / 2) s spacing_positive)
    as (n & -> & Hn).
  apply zigzag_loop_terminates. exact Hn.
Qed.

(** The points are those of the rows, scanned in order. *)
Lemma zigzag_loop_rows fuel :
  forall y direction pts out,
    zigzag_loop wall obstacles s c r fuel y direction pts = Some out ->
    for_each (zigzag_rows wall s fuel y direction)
             (fun row => scan_row wall obstacles c r (fst row) (snd row)) pts
    = Some out.
Proof.
  induction fuel as [|fuel IH]; intros y direction pts out Hrun.
  - discriminate.
  - simpl in Hrun |- *. destruct (Qlt_bool y (wall_height wall)).
    + simpl. destruct (scan_row wall obstacles c r y direction pts) as [pts'|];
        [|discriminate].
      apply IH. exact Hrun.
    + exact Hrun.
Qed.



End ZigzagFacts.

(** The planner's points are those of its rows, scanned in order. *)
Lemma plan_zigzag_by_rows wall obstacles s c r :
  0 < s -> 0 < r ->
  plan_zigzag wall obstacles s c r
  = for_each (zigzag_rows wall s (zigzag_fuel wall s) (s / 2) 1)
      (fun row => scan_row wall obstacles c r (fst row) (snd row)) [].
Proof.
  intros Hs Hr.
  destruct (plan_zigzag_terminates wall obstacles s c r Hs Hr) as (pts & Hpts).
  rewrite Hpts. symmetry. unfold plan_zigzag in Hpts.
  apply zigzag_loop_rows in Hpts. exact Hpts.
Qed.

(** The branch of [scan_row] taken for [direction = 1] visits the
    segments in order and each segment from its start to its end. *)
Lemma scan_row_left_to_right wall obstacles c r y pts :
  scan_row wall obstacles c r y 1 pts =
  for_each (get_free_segments_in_row wall y obstacles c)
    (fun seg => while_le (fst seg) (snd seg) r (append_if_valid wall obstacles c y))
    pts.
Proof. reflexivity. Qed.



(** ** The spiral planner *)

Section SpiralFacts.
Variable wall : Wall.
Variable obstacles : list Rectangle.
Variables s c r tolerance : Q.
Hypothesis spacing_positive : 0 < s.

Lemma spiral_layer_terminates rect pts :
  0 < r ->
  exists pts', spiral_layer wall obstacles c r tolerance rect pts = Some pts'.
Proof.
  intro Hr. unfold spiral_layer.
  destruct (while_le_terminates (rect_x rect) (rect_x rect + rect_width rect) r
              (fun x => append_if_safe wall obstacles c r tolerance (x, rect_y rect))
              pts Hr) as (p1 & ->).
  destruct (while_le_terminates (rect_y rect + r) (rect_y rect + rect_height rect) r
              (fun y => append_if_safe wall obstacles c r tolerance
                          (rect_x rect + rect_width rect, y))
              p1 Hr) as (p2 & ->).
  destruct (while_ge_terminates (rect_x rect + rect_width rect - r) (rect_x rect) r
              (fun x => append_if_safe wall obstacles c r tolerance
                          (x, rect_y rect + rect_height rect))
              p2 Hr) as (p3 & ->).
  now apply while_gt_terminates.
Qed.

Lemma spiral_loop_terminates fuel :
  0 < r ->
  forall offset pts,
    Qmax (wall_width wall) (wall_height wall) - offset
      < inject_Z (Z.of_nat fuel) * s ->
    exists out,
      spiral_loop wall obstacles s c r tolerance (S fuel) offset pts = Some out.
Proof.
  intro Hr. induction fuel as [|fuel IH]; intros offset pts Hfuel.
  - simpl. destruct (Qlt_bool offset _) eqn:E.
    + qbool. change (inject_Z (Z.of_nat 0)) with 0 in Hfuel. lra.
    + eexists; reflexivity.
  - change (spiral_loop wall obstacles s c r tolerance (S (S fuel)) offset pts)
      with (if Qlt_bool offset (Qmax (wall_width wall) (wall_height wall)) then
              if degenerate r (layer_rect wall offset) then Some pts
              else
                match spiral_layer wall obstacles c r tolerance
                        (layer_rect wall offset) pts with
                | Some pts' =>
                    spiral_loop wall obstacles s c r tolerance (S fuel)
                                (offset + s) pts'
                | None => None
                end
            else Some pts).
    destruct (Qlt_bool offset _) eqn:E; [|eexists; reflexivity].
    destruct (degenerate r (layer_rect wall offset)); [eexists; reflexivity|].
    destruct (spiral_layer_terminates (layer_rect wall offset) pts Hr) as (pts' & ->).
    apply IH. rewrite inject_Z_succ in Hfuel. lra.
Qed.

Lemma plan_spiral_terminates :
  0 < r -> exists pts, plan_spiral wall obstacles s c r tolerance = Some pts.
Proof.
  intro Hr. unfold plan_spiral, spiral_fuel.
  destruct (loop_fuel_enough
              (Qmax (wall_width wall) (wall_height wall) - s / 2) s spacing_positive)
    as (n & -> & Hn).
  apply spiral_loop_terminates; assumption.
Qed.

(** The points are those of the layers, traced in order. *)
Lemma spiral_loop_layers fuel :
  forall offset pts out,
    spiral_loop wall obstacles s c r tolerance fuel offset pts = Some out ->
    for_each (spiral_offsets wall s r fuel offset)
      (fun off => spiral_layer wall obstacles c r tolerance (layer_rect wall off))
      pts
    = Some out.
Proof.
  induction fuel as [|fuel IH]; intros offset pts out Hrun.
  - discriminate.
  - simpl in Hrun |- *. destruct (Qlt_bool offset _); [|exact Hrun].
    destruct (degenerate r (layer_rect wall offset)); [exact Hrun|].
    simpl.
    destruct (spiral_layer wall obstacles c r tolerance (layer_rect wall offset) pts)
      as [pts'|]; [|discriminate].
    apply IH. exact Hrun.
Qed.

Lemma spiral_offsets_nth fuel :
  forall offset k off,
    nth_error (spiral_offsets wall s r fuel offset) k = Some off ->
    off == offset + inject_Z (Z.of_nat k) * s
    /\ r < rect_width (layer_rect wall off)
    /\ r < rect_height (layer_rect wall off).
Proof.
  induction fuel as [|fuel IH]; intros offset k off Hk.
  - destruct k; discriminate.
  - simpl in Hk. destruct (Qlt_bool offset _); [|destruct k; discriminate].
    destruct (degenerate r (layer_rect wall offset)) eqn:D;
      [destruct k; discriminate|].
    destruct k as [|k].
    + injection Hk as <-. unfold degenerate in D. qbool. repeat split; try assumption.
      change (inject_Z (Z.of_nat 0)) with 0. lra.
    + simpl in Hk. apply IH in Hk. destruct Hk as (Ho & Hw & Hh).
      repeat split; try assumption. rewrite inject_Z_succ. lra.
Qed.

(** With enough fuel the loop leaves at a degenerate layer. *)
Lemma spiral_offsets_stop fuel :
  0 <= r -> 0 < wall_width wall ->
  forall offset,
    Qmax (wall_width wall) (wall_height wall) - offset
      < inject_Z (Z.of_nat fuel) * s ->
    let n := length (spiral_offsets wall s r (S fuel) offset) in
    wall_width wall - 2 * (offset + inject_Z (Z.of_nat n) * s) <= r
    \/ wall_height wall - 2 * (offset + inject_Z (Z.of_nat n) * s) <= r.
Proof.
  intros Hr HW. induction fuel as [|fuel IH]; intros offset Hfuel n.
  - subst n. cbn [spiral_offsets]. destruct (Qlt_bool offset _) eqn:E.
    + qbool. change (inject_Z (Z.of_nat 0)) with 0 in Hfuel. lra.
    + qbool. left. cbn [length].
      pose proof (Q.le_max_l (wall_width wall) (wall_height wall)).
      change (inject_Z (Z.of_nat 0)) with 0. lra.
  - subst n.
    change (spiral_offsets wall s r (S (S fuel)) offset)
      with (if Qlt_bool offset (Qmax (wall_width wall) (wall_height wall)) then
              if degenerate r (layer_rect wall offset) then []
              else offset :: spiral_offsets wall s r (S fuel) (offset + s)
            else []).
    destruct (Qlt_bool offset _) eqn:E.
    + destruct (degenerate r (layer_rect wall offset)) eqn:D.
      * unfold degenerate, layer_rect in D. cbn [rect_width rect_height] in D.
        apply orb_true_iff in D.
        cbn [length]. change (inject_Z (Z.of_nat 0)) with 0.
        destruct D as [D|D]; apply Qle_bool_iff in D; [left|right]; lra.
      * assert (Hf : Qmax (wall_width wall) (wall_height wall) - (offset + s)
                     < inject_Z (Z.of_nat fuel) * s)
          by (rewrite inject_Z_succ in Hfuel; lra).
        specialize (IH (offset + s) Hf). cbv zeta in IH.
        cbn [length]. rewrite inject_Z_succ.
        destruct IH as [IH|IH]; [left|right]; lra.
    + qbool. left. cbn [length].
      pose proof (Q.le_max_l (wall_width wall) (wall_height wall)).
      change (inject_Z (Z.of_nat 0)) with 0. lra.
Qed.

(** The loop of the README and the loop of section 4.5 trace the same
    layers. *)
Lemma spiral_offsets_refine_spec fuel :
  0 <= r -> 0 < wall_width wall -> 0 < wall_height wall ->
  forall offset,
    spiral_offsets wall s r fuel offset = spec_spiral_offsets wall s r fuel offset.
Proof.
  intros Hr HW HH. induction fuel as [|fuel IH]; intro offset; [reflexivity|].
  simpl. destruct (degenerate r (layer_rect wall offset)) eqn:D.
  - destruct (Qlt_bool offset (Qmax _ _)), (Qlt_bool offset (Qmin _ _ / 2));
      reflexivity.
  - unfold degenerate, layer_rect in D. cbn [rect_width rect_height] in D. qbool.
    assert (G1 : Qlt_bool offset (Qmax (wall_width wall) (wall_height wall)) = true).
    { apply Qlt_bool_iff.
      pose proof (Q.le_max_l (wall_width wall) (wall_height wall)). lra. }
    assert (G2 : Qlt_bool offset (Qmin (wall_width wall) (wall_height wall) / 2) = true).
    { apply Qlt_bool_iff.
      unfold Qdiv. change (/ 2) with (1 # 2).
      destruct (Q.min_spec (wall_width wall) (wall_height wall)) as [[_ ->]|[_ ->]];
        lra. }
    rewrite G1, G2, IH. reflexivity.
Qed.

End SpiralFacts.

(** C4: the spiral planner goes through the offsets [spacing/2],
    [spacing/2 + spacing], ...; every layer it traces has
    [offset < min(W,H)/2] and is not degenerate, and the loop ends at
    the first offset whose layer rectangle has [width <= resolution] or
    [height <= resolution].  The loop of the README (guard
    [offset < max(W,H)]) traces the same layers as the loop worded in
    the specification (guard [offset < min(W,H)/2]). *)
Theorem spiral_layers_until_degenerate wall obstacles s c r tolerance :
  0 < s -> 0 < r -> 0 < wall_width wall -> 0 < wall_height wall ->
  let offsets := spiral_offsets wall s r (spiral_fuel wall s) (s / 2) in
  let stop := layer_rect wall (s / 2 + inject_Z (Z.of_nat (length offsets)) * s) in
  plan_spiral wall obstacles s c r tolerance
  = for_each offsets
      (fun off => spiral_layer wall obstacles c r tolerance (layer_rect wall off)) []
  /\ offsets = spec_spiral_offsets wall s r (spiral_fuel wall s) (s / 2)
  /\ (forall k off,
        nth_error offsets k = Some off ->
        off == s / 2 + inject_Z (Z.of_nat k) * s
        /\ off < Qmin (wall_width wall) (wall_height wall) / 2
        /\ r < rect_width (layer_rect wall off)
        /\ r < rect_height (layer_rect wall off))
  /\ (rect_width stop <= r \/ rect_height stop <= r).
Proof.
  intros Hs Hr HW HH offsets stop. repeat split.
  - destruct (plan_spiral_terminates wall obstacles s c r tolerance Hs Hr)
      as (pts & Hpts).
    rewrite Hpts. symmetry. unfold plan_spiral in Hpts.
    apply spiral_loop_layers in Hpts. exact Hpts.
  - apply spiral_offsets_refine_spec; lra.
  - apply spiral_offsets_nth in H. tauto.
  - apply spiral_offsets_nth in H. destruct H as (_ & Hw & Hh).
    unfold layer_rect in Hw, Hh. cbn [rect_width rect_height] in Hw, Hh.
    unfold Qdiv. change (/ 2) with (1 # 2).
    destruct (Q.min_spec (wall_width wall) (wall_height wall)) as [[_ ->]|[_ ->]];
      lra.
  - apply spiral_offsets_nth in H. tauto.
  - apply spiral_offsets_nth in H. tauto.
  - subst stop offsets. unfold layer_rect. cbn [rect_width rect_height].
    unfold spiral_fuel.
    destruct (loop_fuel_enough
                (Qmax (wall_width wall) (wall_height wall) - s / 2) s Hs)
      as (n & -> & Hn).
    apply spiral_offsets_stop; [lra|assumption|assumption].
Qed.

Lemma spiral_layers_until_degenerate_witness :
  let wall := mkWall 1 1 in
  let s := 1 # 4 in
  let r := 1 # 8 in
  let offsets := spiral_offsets wall s r (spiral_fuel wall s) (s / 2) in
  let stop := layer_rect wall (s / 2 + inject_Z (Z.of_nat (length offsets)) * s) in
  plan_spiral wall [] s 0 r (1 # 1000)
  = for_each offsets
      (fun off => spiral_layer wall [] 0 r (1 # 1000) (layer_rect wall off)) []
  /\ offsets = spec_spiral_offsets wall s r (spiral_fuel wall s) (s / 2)
  /\ (forall k off,
        nth_error offsets k = Some off ->
        off == s / 2 + inject_Z (Z.of_nat k) * s
        /\ off < Qmin (wall_width wall) (wall_height wall) / 2
        /\ r < rect_width (layer_rect wall off)
        /\ r < rect_height (layer_rect wall off))
  /\ (rect_width stop <= r \/ rect_height stop <= r).
Proof.
  apply (spiral_layers_until_degenerate (mkWall 1 1) [] (1 # 4) 0 (1 # 8) (1 # 1000));
    reflexivity.
Defined.

(** The loop of the algorithm document leaves on [width <= 0] instead:
    on a 1 x 1 wall with spacing 0.3 and resolution 0.1 it also traces
    the layer at offset 0.45, whose sides are 0.1 long. *)
Example design_spiral_traces_thin_layer :
  let wall := mkWall 1 1 in
  map Qred (design_spiral_offsets wall (3 # 10) 10 ((3 # 10) / 2)) = [3 # 20; 9 # 20]
  /\ map Qred (spiral_offsets wall (3 # 10) (1 # 10) 10 ((3 # 10) / 2)) = [3 # 20].
Proof. split; reflexivity. Qed.

(** ** Geometry *)

Lemma contains_point_iff r x y :
  contains_point r x y = true <->
  rect_x r <= x /\ x <= rect_x r + rect_width r
  /\ rect_y r <= y /\ y <= rect_y r + rect_height r.
Proof.
  unfold contains_point. rewrite !andb_true_iff, !Qle_bool_iff. tauto.
Qed.

Lemma contains_point_false r x y :
  contains_point r x y = false <->
  x < rect_x r \/ rect_x r + rect_width r < x
  \/ y < rect_y r \/ rect_y r + rect_height r < y.
Proof.
  unfold contains_point. rewrite !andb_false_iff, !Qle_bool_false. tauto.
Qed.

Lemma inside_some_obstacle_false obstacles x y :
  inside_some_obstacle obstacles x y = false <->
  forall o, In o obstacles -> contains_point o x y = false.
Proof.
  induction obstacles as [|o rest IH]; simpl.
  - split; [intros _ o []|reflexivity].
  - destruct (contains_point o x y) eqn:E.
    + split; [discriminate|]. intro H. rewrite (H o) in E; [discriminate|now left].
    + rewrite IH. split.
      * intros H o' [<-|Hin]; [exact E|now apply H].
      * intros H o' Hin. apply H. now right.
Qed.

Lemma is_valid_iff wall expanded x y :
  is_valid wall expanded x y = true <->
  (0 <= x /\ x <= wall_width wall /\ 0 <= y /\ y <= wall_height wall)
  /\ forall o, In o expanded -> contains_point o x y = false.
Proof.
  unfold is_valid.
  destruct (Qle_bool 0 x && Qle_bool x (wall_width wall)
            && Qle_bool 0 y && Qle_bool y (wall_height wall)) eqn:E; simpl.
  - rewrite negb_true_iff, inside_some_obstacle_false.
    rewrite !andb_true_iff, !Qle_bool_iff in E. tauto.
  - split; [discriminate|]. intros [Hb _].
    rewrite !andb_false_iff, !Qle_bool_false in E. lra.
Qed.

Lemma rect_included_refl a : rect_included a a.
Proof. unfold rect_included. lra. Qed.

Lemma rect_included_trans a b c :
  rect_included a b -> rect_included b c -> rect_included a c.
Proof. unfold rect_included. lra. Qed.



Lemma union_includes_left a b : rect_included a (union a b).
Proof.
  unfold rect_included, union. cbn [rect_x rect_y rect_width rect_height].
  pose proof (Q.le_min_l (rect_x a) (rect_x b)).
  pose proof (Q.le_min_l (rect_y a) (rect_y b)).
  pose proof (Q.le_max_l (rect_x a + rect_width a) (rect_x b + rect_width b)).
  pose proof (Q.le_max_l (rect_y a + rect_height a) (rect_y b + rect_height b)).
  lra.
Qed.

Lemma union_includes_right a b : rect_included b (union a b).
Proof.
  unfold rect_included, union. cbn [rect_x rect_y rect_width rect_height].
  pose proof (Q.le_min_r (rect_x a) (rect_x b)).
  pose proof (Q.le_min_r (rect_y a) (rect_y b)).
  pose proof (Q.le_max_r (rect_x a + rect_width a) (rect_x b + rect_width b)).
  pose proof (Q.le_max_r (rect_y a + rect_height a) (rect_y b + rect_height b)).
  lra.
Qed.

(** ** Merging never uncovers an obstacle *)

Lemma remove_overlapping_keeps obs merged m o :
  find_overlapping obs merged = Some m ->
  In o merged -> o = m \/ In o (remove_overlapping obs merged).
Proof.
  induction merged as [|m0 rest IH]; simpl; [discriminate|].
  destruct (overlaps obs m0).
  - intros [= <-] [->|Hin]; [now left|now right].
  - intros Hf [->|Hin]; [right; now left|].
    destruct (IH Hf Hin) as [->|H]; [now left|right; now right].
Qed.

Lemma merge_loop_covers obstacles :
  forall merged o,
    In o obstacles \/ covered o merged ->
    covered o (merge_loop obstacles merged).
Proof.
  induction obstacles as [|obs rest IH]; intros merged o H; simpl.
  - destruct H as [[]|H]. exact H.
  - destruct (find_overlapping obs merged) as [ov|] eqn:F; apply IH.
    + destruct H as [[<-|Hin]|(m & Hm & Hinc)].
      * right. exists (union obs ov). split; [|apply union_includes_left].
        apply in_or_app. right. now left.
      * now left.
      * right. destruct (remove_overlapping_keeps _ _ _ _ F Hm) as [->|Hk].
        -- exists (union obs ov). split.
           ++ apply in_or_app. right. now left.
           ++ eapply rect_included_trans; [exact Hinc|apply union_includes_right].
        -- exists m. split; [apply in_or_app; now left|exact Hinc].
    + destruct H as [[<-|Hin]|(m & Hm & Hinc)].
      * right. exists obs. split; [|apply rect_included_refl].
        apply in_or_app. right. now left.
      * now left.
      * right. exists m. split; [apply in_or_app; now left|exact Hinc].
Qed.

Lemma merge_obstacles_covers obstacles o :
  In o obstacles -> covered o (merge_obstacles obstacles).
Proof. intro H. apply merge_loop_covers. now left. Qed.


(** ** Segments *)




Lemma Qmin_either (a b : Q) : Qmin a b == a \/ Qmin a b == b.
Proof. destruct (Q.min_spec a b) as [[_ H]|[_ H]]; auto. Qed.

Lemma Qmax_either (a b : Q) : Qmax a b == a \/ Qmax a b == b.
Proof. destruct (Q.max_spec a b) as [[_ H]|[_ H]]; auto. Qed.



(** ** What the validation accepts *)

Section ValidationFacts.
Variable wall : Wall.
Variable expanded : list Rectangle.
Variables tolerance res : Q.

Lemma check_points_ok pts u :
  check_points wall expanded pts = Ok u ->
  forall p, In p pts -> is_valid wall expanded (fst p) (snd p) = true.
Proof.
  induction pts as [|p0 rest IH]; simpl; intros H p Hin; [contradiction|].
  destruct (is_valid wall expanded (fst p0) (snd p0)) eqn:E; simpl in H;
    [|discriminate].
  destruct Hin as [<-|Hin]; [exact E|now apply IH].
Qed.

Lemma check_segments_ok pts :
  forall i u,
    check_segments expanded tolerance res i pts = Ok u ->
    forall k p q,
      nth_error pts k = Some p -> nth_error pts (S k) = Some q ->
      segment_crosses_obstacle expanded tolerance res
        (fst p) (snd p) (fst q) (snd q) = false.
Proof.
  induction pts as [|p1 rest IH]; intros i u H k p q Hp Hq.
  - destruct k; discriminate.
  - destruct rest as [|p2 rest'].
    + destruct k as [|[|k]]; discriminate.
    + cbn [check_segments] in H.
      destruct (segment_crosses_obstacle expanded tolerance res
                  (fst p1) (snd p1) (fst p2) (snd p2)) eqn:E; [discriminate|].
      destruct k as [|k].
      * injection Hp as <-. injection Hq as <-. exact E.
      * eapply IH; [exact H|exact Hp|exact Hq].
Qed.

Lemma validate_path_safety_ok pts u :
  validate_path_safety wall expanded tolerance res pts = Ok u ->
  (forall p, In p pts -> is_valid wall expanded (fst p) (snd p) = true)
  /\ (forall k p q,
        nth_error pts k = Some p -> nth_error pts (S k) = Some q ->
        segment_crosses_obstacle expanded tolerance res
          (fst p) (snd p) (fst q) (snd q) = false).
Proof.
  unfold validate_path_safety.
  destruct (check_points wall expanded pts) as [u0|e] eqn:E; [|discriminate].
  intro H. split.
  - eapply check_points_ok; exact E.
  - eapply check_segments_ok; exact H.
Qed.

End ValidationFacts.

(** ** The planning call *)

Section PlanFacts.
Variable wall : Wall.
Variable obstacles : list Rectangle.
Variable settings : PlannerSettings.
Variable max_points : nat.
Variable tolerance : Q.

Lemma accept_ok pts out :
  accept wall obstacles settings max_points tolerance pts = Ok out ->
  out = pts /\ pts <> [] /\ (length pts <= max_points)%nat
  /\ validate_path_safety wall (expanded_obstacles obstacles settings) tolerance
       (resolution settings) pts = Ok tt.
Proof.
  unfold accept, check_not_empty, check_point_count.
  destruct (length pts =? 0)%nat eqn:E0; [discriminate|].
  destruct (max_points <? length pts)%nat eqn:E1; [discriminate|].
  destruct (validate_path_safety _ _ _ _ pts) as [[]|e]; [|discriminate].
  intros [= <-]. repeat split.
  - intros ->. discriminate.
  - apply Nat.ltb_ge. exact E1.
Qed.

Lemma plan_ok traj :
  plan wall obstacles settings max_points tolerance = Some (Ok traj) ->
  check_obstacles wall obstacles = Ok tt
  /\ generate wall obstacles settings tolerance = Some (points traj)
  /\ accept wall obstacles settings max_points tolerance (points traj)
     = Ok (points traj)
  /\ traj = make_trajectory settings (points traj).
Proof.
  unfold plan, plan_points.
  destruct (check_obstacles wall obstacles) as [[]|e]; [|discriminate].
  destruct (generate wall obstacles settings tolerance) as [pts|]; [|discriminate].
  destruct (accept wall obstacles settings max_points tolerance pts) as [out|e] eqn:A;
    [|discriminate].
  intros [= <-]. apply accept_ok in A as A'. destruct A' as (-> & _).
  simpl. auto.
Qed.

End PlanFacts.



(** ** Every generated point is valid *)

Lemma all_valid_nil wall expanded : all_valid wall expanded [].
Proof. intros p []. Qed.

Lemma all_valid_snoc wall expanded pts p :
  all_valid wall expanded pts ->
  is_valid wall expanded (fst p) (snd p) = true ->
  all_valid wall expanded (pts ++ [p]).
Proof.
  intros H Hp q Hin. apply in_app_or in Hin.
  destruct Hin as [Hin|[<-|[]]]; [now apply H|exact Hp].
Qed.

Section GeneratedPoints.
Variable wall : Wall.
Variable obstacles : list Rectangle.
Variables s c r tolerance : Q.

Lemma append_if_valid_valid y x pts :
  all_valid wall (expand_obstacles obstacles c) pts ->
  all_valid wall (expand_obstacles obstacles c)
    (append_if_valid wall obstacles c y x pts).
Proof.
  intro H. unfold append_if_valid.
  destruct (is_valid wall (expand_obstacles obstacles c) x y) eqn:E; [|exact H].
  apply all_valid_snoc; assumption.
Qed.

Lemma append_if_safe_valid p pts :
  all_valid wall (expand_obstacles obstacles c) pts ->
  all_valid wall (expand_obstacles obstacles c)
    (append_if_safe wall obstacles c r tolerance p pts).
Proof.
  intro H. unfold append_if_safe.
  destruct (is_valid wall (expand_obstacles obstacles c) (fst p) (snd p)) eqn:E;
    [|exact H].
  destruct (negb (crosses_obstacle obstacles c r tolerance pts p)); [|exact H].
  apply all_valid_snoc; assumption.
Qed.

Lemma scan_row_valid y direction pts out :
  all_valid wall (expand_obstacles obstacles c) pts ->
  scan_row wall obstacles c r y direction pts = Some out ->
  all_valid wall (expand_obstacles obstacles c) out.
Proof.
  intros H. unfold scan_row. destruct (direction =? 1)%Z.
  - apply for_each_invariant; [|exact H].
    intros seg st st' _ Hst. unfold while_le.
    apply while_loop_invariant; [|exact Hst].
    intros x st0 _. apply append_if_valid_valid.
  - apply for_each_invariant; [|exact H].
    intros seg st st' _ Hst. unfold while_ge.
    apply while_loop_invariant; [|exact Hst].
    intros x st0 _. apply append_if_valid_valid.
Qed.

Lemma plan_zigzag_valid pts :
  plan_zigzag wall obstacles s c r = Some pts ->
  all_valid wall (expand_obstacles obstacles c) pts.
Proof.
  unfold plan_zigzag. intro H. apply zigzag_loop_rows in H.
  revert H. apply for_each_invariant; [|apply all_valid_nil].
  intros row st st' _ Hst. now apply scan_row_valid.
Qed.

Lemma spiral_layer_valid rect pts out :
  all_valid wall (expand_obstacles obstacles c) pts ->
  spiral_layer wall obstacles c r tolerance rect pts = Some out ->
  all_valid wall (expand_obstacles obstacles c) out.
Proof.
  intros H. unfold spiral_layer, while_le, while_ge, while_gt.
  destruct (while_loop _ _ _ _ (rect_x rect) pts) as [p1|] eqn:E1; [|discriminate].
  destruct (while_loop _ _ _ _ (rect_y rect + r) p1) as [p2|] eqn:E2; [|discriminate].
  destruct (while_loop _ _ _ _ (rect_x rect + rect_width rect - r) p2) as [p3|] eqn:E3;
    [|discriminate].
  intro E4.
  assert (H1 : all_valid wall (expand_obstacles obstacles c) p1).
  { revert E1. apply while_loop_invariant; [|exact H].
    intros x st _. apply append_if_safe_valid. }
  assert (H2 : all_valid wall (expand_obstacles obstacles c) p2).
  { revert E2. apply while_loop_invariant; [|exact H1].
    intros x st _. apply append_if_safe_valid. }
  assert (H3 : all_valid wall (expand_obstacles obstacles c) p3).
  { revert E3. apply while_loop_invariant; [|exact H2].
    intros x st _. apply append_if_safe_valid. }
  revert E4. apply while_loop_invariant; [|exact H3].
  intros x st _. apply append_if_safe_valid.
Qed.

Lemma plan_spiral_valid pts :
  plan_spiral wall obstacles s c r tolerance = Some pts ->
  all_valid wall (expand_obstacles obstacles c) pts.
Proof.
  unfold plan_spiral. intro H. apply spiral_loop_layers in H.
  revert H. apply for_each_invariant; [|apply all_valid_nil].
  intros off st st' _ Hst. now apply spiral_layer_valid.
Qed.

End GeneratedPoints.

Lemma generate_valid wall obstacles settings tolerance pts :
  generate wall obstacles settings tolerance = Some pts ->
  all_valid wall (expanded_obstacles obstacles settings) pts.
Proof.
  unfold generate, expanded_obstacles, planning_obstacles.
  destruct (pattern settings).
  - apply plan_zigzag_valid.
  - apply plan_spiral_valid.
Qed.

Lemma generate_terminates wall obstacles settings tolerance :
  0 < spacing settings -> 0 < resolution settings ->
  exists pts, generate wall obstacles settings tolerance = Some pts.
Proof.
  intros Hs Hr. unfold generate. destruct (pattern settings).
  - now apply plan_zigzag_terminates.
  - now apply plan_spiral_terminates.
Qed.



(** C3, as the code has it: when the obstacles pass the size check and
    no point of the wall is valid, the planning call raises the "No
    valid coverage path" error instead of returning an empty
    trajectory; and a returned trajectory is never empty. *)
Theorem no_valid_point_raises_no_valid_path
    wall obstacles settings max_points tolerance :
  (0 < spacing settings -> 0 < resolution settings ->
   check_obstacles wall obstacles = Ok tt ->
   (forall x y, is_valid wall (expanded_obstacles obstacles settings) x y = false) ->
   plan wall obstacles settings max_points tolerance = Some (Raise NoValidPath))
  /\ (forall traj,
        plan wall obstacles settings max_points tolerance = Some (Ok traj) ->
        points traj <> [] /\ (0 < point_count traj)%nat).
Proof.
  split.
  - intros Hs Hr Hobs Hnone.
    destruct (generate_terminates wall obstacles settings tolerance Hs Hr) as (pts & G).
    assert (Hpts : pts = []).
    { destruct pts as [|p rest]; [reflexivity|].
      pose proof (generate_valid _ _ _ _ _ G p (or_introl eq_refl)) as Hv.
      rewrite Hnone in Hv. discriminate. }
    subst pts. unfold plan, plan_points. rewrite Hobs, G. reflexivity.
  - intros traj Hplan. apply plan_ok in Hplan.
    destruct Hplan as (_ & _ & Hacc & Htraj).
    apply accept_ok in Hacc. destruct Hacc as (_ & Hne & _ & _).
    split; [exact Hne|]. rewrite Htraj. simpl.
    destruct (points traj); [congruence|simpl; lia].
Qed.

Lemma no_valid_point_raises_no_valid_path_witness :
  plan (mkWall 1 1) [mkRectangle (1 # 4) (1 # 4) (1 # 2) (1 # 2)]
       (mkSettings zigzag (1 # 2) (1 # 10) (1 # 2) (1 # 4)) 100 (1 # 1000)
  = Some (Raise NoValidPath)
  /\ exists traj,
       plan (mkWall 1 1) [] (mkSettings zigzag 1 (1 # 10) (1 # 100) (1 # 2))
            100 (1 # 1000) = Some (Ok traj)
       /\ points traj <> [].
Proof.
  split.
  - apply (proj1 (no_valid_point_raises_no_valid_path (mkWall 1 1)
             [mkRectangle (1 # 4) (1 # 4) (1 # 2) (1 # 2)]
             (mkSettings zigzag (1 # 2) (1 # 10) (1 # 2) (1 # 4)) 100 (1 # 1000)));
      try reflexivity.
    intros x y.
    destruct (is_valid _ _ x y) eqn:E; [|reflexivity].
    apply is_valid_iff in E. destruct E as (Hwall & Hout).
    specialize (Hout _ (or_introl eq_refl)).
    apply contains_point_false in Hout.
    cbn [rect_x rect_y rect_width rect_height expand_obstacle] in Hout.
    cbn [wall_width wall_height clearance] in *. lra.
  - assert (E : exists pts,
               plan_points (mkWall 1 1) []
                 (mkSettings zigzag 1 (1 # 10) (1 # 100) (1 # 2)) 100 (1 # 1000)
               = Some (Ok pts)).
    { eexists. vm_compute. reflexivity. }
    destruct E as (pts & E).
    exists (make_trajectory (mkSettings zigzag 1 (1 # 10) (1 # 100) (1 # 2)) pts).
    assert (P : plan (mkWall 1 1) []
                  (mkSettings zigzag 1 (1 # 10) (1 # 100) (1 # 2)) 100 (1 # 1000)
                = Some (Ok (make_trajectory
                              (mkSettings zigzag 1 (1 # 10) (1 # 100) (1 # 2)) pts)))
      by (unfold plan; rewrite E; reflexivity).
    split; [exact P|].
    exact (proj1 (proj2 (no_valid_point_raises_no_valid_path _ _ _ _ _) _ P)).
Defined.

(** Scenario C: one obstacle covering the whole 5 x 5 wall leaves no
    valid point, and the call raises "Obstacle exceeds wall dimensions",
    not "No valid coverage path". *)
Lemma scenario_C_raises_obstacle_exceeds_wall :
  let wall := mkWall 5 5 in
  let obstacles := [mkRectangle 0 0 5 5] in
  let settings := mkSettings zigzag (5 # 100) (1 # 10) (2 # 100) (1 # 100) in
  (forall x y, is_valid wall (expanded_obstacles obstacles settings) x y = false)
  /\ plan wall obstacles settings MAX_POINTS (1 # 1000)
     = Some (Raise ObstacleExceedsWall)
  /\ plan wall obstacles settings MAX_POINTS (1 # 1000)
     <> Some (Raise NoValidPath).
Proof.
  intros wall obstacles settings. split; [|split].
  - intros x y.
    destruct (is_valid _ _ x y) eqn:E; [|reflexivity].
    apply is_valid_iff in E. destruct E as (Hwall & Hout).
    specialize (Hout _ (or_introl eq_refl)).
    apply contains_point_false in Hout.
    cbn [rect_x rect_y rect_width rect_height expand_obstacle] in Hout.
    cbn [wall wall_width wall_height clearance settings] in *. lra.
  - reflexivity.
  - discriminate.
Qed.

(** ** Obstacle expansion *)

(** An obstacle in the corner of a 5 x 5 wall (the one the form adds by
    default), expanded by the default clearance, starts left of and
    below the wall: it is not the clamped rectangle, and it contains
    points outside the wall. *)
Lemma expand_obstacle_leaves_the_wall :
  let wall := mkWall 5 5 in
  let obstacle := mkRectangle 0 0 0.5 0.5 in
  rect_x (expand_obstacle obstacle 0.02) < 0
  /\ ~ rect_x (expand_obstacle obstacle 0.02)
       == rect_x (clamped_obstacle wall obstacle 0.02)
  /\ contains_point (expand_obstacle obstacle 0.02) (-0.01) 0.25 = true
  /\ contains_point (clamped_obstacle wall obstacle 0.02) (-0.01) 0.25 = false.
Proof.
  intros wall obstacle.
  split; [reflexivity|].
  split; [intro H; vm_compute in H; discriminate|].
  split; reflexivity.
Qed.

(** C5, as the code has it: the expanded obstacle is the obstacle
    inflated by [c] on all sides, [[x-c, x+w+c] x [y-c, y+h+c]], with no
    clamping; point validation, which tests the wall bounds first,
    gives the same answer for it as for the clamped rectangle. *)
Theorem expand_obstacle_inflates wall obstacle c x y :
  let e := expand_obstacle obstacle c in
  rect_x e == rect_x obstacle - c
  /\ rect_y e == rect_y obstacle - c
  /\ rect_x e + rect_width e == rect_x obstacle + rect_width obstacle + c
  /\ rect_y e + rect_height e == rect_y obstacle + rect_height obstacle + c
  /\ is_valid wall [e] x y = is_valid wall [clamped_obstacle wall obstacle c] x y.
Proof.
  intro e. subst e. unfold expand_obstacle. cbn [rect_x rect_y rect_width rect_height].
  repeat split; try lra.
  unfold is_valid.
  destruct (Qle_bool 0 x && Qle_bool x (wall_width wall)
            && Qle_bool 0 y && Qle_bool y (wall_height wall)) eqn:E; [|reflexivity].
  cbn [negb inside_some_obstacle]. f_equal.
  assert (Hc : forall a b : bool, (a = true <-> b = true) -> a = b).
  { intros [] [] [H1 H2]; auto; symmetry; auto. }
  assert (He : forall a b : bool, a = b ->
               (if a then true else false) = (if b then true else false))
    by (intros a b ->; reflexivity).
  apply He, Hc. rewrite !contains_point_iff.
  unfold clamped_obstacle. cbn [rect_x rect_y rect_width rect_height].
  qbool.
  pose proof (Q.le_max_l 0 (rect_x obstacle - c)).
  pose proof (Q.le_max_r 0 (rect_x obstacle - c)).
  pose proof (Q.le_max_l 0 (rect_y obstacle - c)).
  pose proof (Q.le_max_r 0 (rect_y obstacle - c)).
  pose proof (Q.le_min_l (wall_width wall) (rect_x obstacle + rect_width obstacle + c)).
  pose proof (Q.le_min_r (wall_width wall) (rect_x obstacle + rect_width obstacle + c)).
  pose proof (Q.le_min_l (wall_height wall) (rect_y obstacle + rect_height obstacle + c)).
  pose proof (Q.le_min_r (wall_height wall) (rect_y obstacle + rect_height obstacle + c)).
  destruct (Qmax_either 0 (rect_x obstacle - c)),
           (Qmax_either 0 (rect_y obstacle - c)),
           (Qmin_either (wall_width wall) (rect_x obstacle + rect_width obstacle + c)),
           (Qmin_either (wall_height wall) (rect_y obstacle + rect_height obstacle + c));
    split; intro; lra.
Qed.

(** ** Merging obstacles *)

(** C6: three obstacles of which the third overlaps the first two.
    [merge_obstacles] merges the third with the first only, so the
    second still overlaps the merged rectangle in its output, also
    after expansion: the planner does not work on pairwise disjoint
    obstacles. *)
Theorem merge_obstacles_leaves_an_overlap :
  let a := mkRectangle 0 0 1 1 in
  let b := mkRectangle 2 0 1 1 in
  let c := mkRectangle 0.5 0 2 1 in
  let u := mkRectangle 0 0 2.5 1 in
  merge_obstacles [a; b; c] = [b; u]
  /\ overlaps b u = true
  /\ contains_point b 2.25 0.5 = true
  /\ contains_point u 2.25 0.5 = true
  /\ (exists e1 e2,
        expand_obstacles (planning_obstacles [a; b; c]) 0.02 = [e1; e2]
        /\ overlaps e1 e2 = true).
Proof.
  intros a b c u.
  split; [vm_compute; reflexivity|].
  split; [reflexivity|].
  split; [reflexivity|].
  split; [reflexivity|].
  eexists. eexists. split; vm_compute; reflexivity.
Qed.

(** Scenario E: two overlapping obstacles are merged into one
    rectangle, and a row that crosses both has one gap. *)
Example scenario_E_two_overlapping_obstacles :
  let a := mkRectangle 1 1 1 1 in
  let b := mkRectangle 1.5 1 1 1 in
  merge_obstacles [a; b] = [mkRectangle 1 1 1.5 1]
  /\ get_free_segments_in_row (mkWall 5 5) 1.5 (merge_obstacles [a; b]) 0.02
     = [(0, 1 - 0.02); (1 - 0.02 + (1.5 + 2 * 0.02), 5)].
Proof. split; vm_compute; reflexivity. Qed.

(** ** Metrics *)

Lemma fold_left_map {A B C : Type} (f : A -> C -> A) (g : B -> C) (l : list B) :
  forall a, fold_left f (map g l) a = fold_left (fun acc i => f acc (g i)) l a.
Proof. induction l as [|i rest IH]; intro a; simpl; [reflexivity|apply IH]. Qed.

Lemma fold_left_same {A B : Type} (f g : A -> B -> A) (l : list B) :
  (forall a b, f a b = g a b) ->
  forall a, fold_left f l a = fold_left g l a.
Proof.
  intro H. induction l as [|b rest IH]; intro a; simpl; [reflexivity|].
  rewrite H. apply IH.
Qed.

Lemma path_length_loop (pts : list Point) :
  forall total : R,
    fold_left
      (fun total_length i =>
         Rplus total_length
           (euclidean_distance (nth i pts (0, 0)) (nth (i + 1) pts (0, 0))))
      (seq 0 (length pts - 1)) total
    = (total + sum_consecutive_distances pts)%R.
Proof.
  induction pts as [|p1 rest IH]; intro total.
  - simpl. Lra.lra.
  - destruct rest as [|p2 rest'].
    + simpl. Lra.lra.
    + change (length (p1 :: p2 :: rest') - 1)%nat with (S (length rest')).
      change (sum_consecutive_distances (p1 :: p2 :: rest'))
        with (euclidean_distance p1 p2 + sum_consecutive_distances (p2 :: rest'))%R.
      specialize (IH (total + euclidean_distance p1 p2)%R).
      change (length (p2 :: rest') - 1)%nat with (length rest' - 0)%nat in IH.
      rewrite Nat.sub_0_r in IH.
      rewrite <- Rplus_assoc, <- IH.
      change (seq 0 (S (length rest'))) with (0%nat :: seq 1 (length rest')).
      rewrite <- seq_shift.
      cbn [fold_left]. rewrite fold_left_map.
      change (nth 0 (p1 :: p2 :: rest') (0, 0)) with p1.
      change (nth (0 + 1) (p1 :: p2 :: rest') (0, 0)) with p2.
      apply fold_left_same. intros acc i.
      replace (S i + 1)%nat with (S (i + 1)) by lia. reflexivity.
Qed.

Lemma calculate_path_length_sum pts :
  calculate_path_length pts = sum_consecutive_distances pts.
Proof.
  unfold calculate_path_length. rewrite path_length_loop. Lra.lra.
Qed.



(** ** Scenario A *)

Lemma check_points_all_valid wall expanded pts :
  all_valid wall expanded pts -> check_points wall expanded pts = Ok tt.
Proof.
  induction pts as [|p rest IH]; intro H; simpl; [reflexivity|].
  rewrite (H p (or_introl eq_refl)). simpl. apply IH.
  intros q Hq. apply H. now right.
Qed.

Lemma check_segments_no_obstacles tolerance res pts :
  forall i, check_segments [] tolerance res i pts = Ok tt.
Proof.
  induction pts as [|p1 rest IH]; intro i; [reflexivity|].
  destruct rest as [|p2 rest']; [reflexivity|].
  cbn [check_segments]. unfold segment_crosses_obstacle. cbn [crosses_any].
  apply IH.
Qed.

(** *** Loops that count *)

Lemma while_loop_iterates {St : Type} cond next (body : Q -> St -> St) n :
  forall fuel x st,
    (n < fuel)%nat ->
    (forall v, In v (iterates next x n) -> cond v = true) ->
    cond (iterate next n x) = false ->
    while_loop fuel cond next body x st
    = Some (fold_left (fun st v => body v st) (iterates next x n) st).
Proof.
  induction n as [|n IH]; intros fuel x st Hfuel Htrue Hfalse.
  - destruct fuel as [|fuel]; [lia|]. rewrite while_loop_step.
    simpl in Hfalse. rewrite Hfalse. reflexivity.
  - destruct fuel as [|fuel]; [lia|]. rewrite while_loop_step.
    rewrite (Htrue x (or_introl eq_refl)). cbn [iterates fold_left].
    apply IH; [lia| |exact Hfalse].
    intros v Hv. apply Htrue. now right.
Qed.

Lemma iterates_In next n :
  forall x v, In v (iterates next x n) ->
              exists i, (i < n)%nat /\ v = iterate next i x.
Proof.
  induction n as [|n IH]; intros x v Hv; [contradiction|].
  destruct Hv as [<-|Hv].
  - exists 0%nat. split; [lia|reflexivity].
  - destruct (IH _ _ Hv) as (i & Hi & ->). exists (S i). split; [lia|reflexivity].
Qed.

Lemma iterate_up r n :
  forall x, iterate (fun x => x + r) n x == x + inject_Z (Z.of_nat n) * r.
Proof.
  induction n as [|n IH]; intro x.
  - simpl. change (inject_Z 0) with 0. lra.
  - cbn [iterate]. rewrite IH, inject_Z_succ. lra.
Qed.

Lemma iterate_down r n :
  forall x, iterate (fun x => x - r) n x == x - inject_Z (Z.of_nat n) * r.
Proof.
  induction n as [|n IH]; intro x.
  - simpl. change (inject_Z 0) with 0. lra.
  - cbn [iterate]. rewrite IH, inject_Z_succ. lra.
Qed.

Lemma inject_Z_nat_le (i n : nat) :
  (i <= n)%nat -> inject_Z (Z.of_nat i) <= inject_Z (Z.of_nat n).
Proof. intro H. rewrite <- Zle_Qle. lia. Qed.

Lemma for_each_appends {A B : Type} (body : A -> list B -> option (list B))
    (f : A -> list B) (l : list A) :
  (forall item st, In item l -> body item st = Some (st ++ f item)) ->
  forall st, for_each l body st = Some (st ++ flat_map f l).
Proof.
  induction l as [|item rest IH]; intros Hbody st; simpl.
  - now rewrite app_nil_r.
  - rewrite (Hbody item st (or_introl eq_refl)).
    rewrite IH; [now rewrite <- app_assoc|].
    intros i s Hi. apply Hbody. now right.
Qed.

(** *** Rows of a wall without obstacles *)

Section FullRows.
Variable wall : Wall.
Variables c r : Q.
Variable n : nat.
Hypothesis resolution_positive : 0 < r.
Hypothesis last_step_inside : inject_Z (Z.of_nat n) * r <= wall_width wall.
Hypothesis next_step_outside : wall_width wall < inject_Z (Z.of_nat (S n)) * r.
Hypothesis fuel_enough : (S n < loop_fuel (wall_width wall - 0) r)%nat.

Lemma fold_append_if_valid y l :
  (forall v, In v l -> is_valid wall [] v y = true) ->
  forall pts,
    fold_left (fun st v => append_if_valid wall [] c y v st) l pts
    = pts ++ map (fun v => (v, y)) l.
Proof.
  induction l as [|v rest IH]; intros Hvalid pts; simpl.
  - now rewrite app_nil_r.
  - unfold append_if_valid at 2. cbn [expand_obstacles map].
    rewrite (Hvalid v (or_introl eq_refl)).
    rewrite IH; [now rewrite <- app_assoc|].
    intros w Hw. apply Hvalid. now right.
Qed.

Lemma step_bound i : (i <= n)%nat -> inject_Z (Z.of_nat i) * r <= wall_width wall.
Proof.
  intro Hi. apply inject_Z_nat_le in Hi.
  apply (Qmult_le_compat_r _ _ r) in Hi; lra.
Qed.

Lemma step_nonneg i : 0 <= inject_Z (Z.of_nat i) * r.
Proof.
  apply Qmult_le_0_compat; [|lra].
  change 0 with (inject_Z 0). rewrite <- Zle_Qle. lia.
Qed.

Lemma scan_full_row y direction pts :
  0 <= y -> y <= wall_height wall ->
  scan_row wall [] c r y direction pts
  = Some (pts ++ full_row wall r (S n) (y, direction)).
Proof.
  intros Hy0 Hy1. unfold scan_row, full_row. cbn [fst snd].
  change (get_free_segments_in_row wall y [] c) with [(0, wall_width wall)].
  destruct (direction =? 1)%Z; cbn [rev app for_each fst snd].
  - unfold while_le.
    rewrite (while_loop_iterates _ _ _ (S n)).
    + rewrite fold_append_if_valid; [reflexivity|].
      intros v Hv. apply iterates_In in Hv. destruct Hv as (i & Hi & ->).
      apply is_valid_iff. split; [|intros o []].
      pose proof (iterate_up r i 0) as E.
      pose proof (step_bound i ltac:(lia)). pose proof (step_nonneg i). lra.
    + exact fuel_enough.
    + intros v Hv. apply iterates_In in Hv. destruct Hv as (i & Hi & ->).
      apply Qle_bool_iff. pose proof (iterate_up r i 0) as E.
      pose proof (step_bound i ltac:(lia)). lra.
    + apply Qle_bool_false. pose proof (iterate_up r (S n) 0) as E. lra.
  - unfold while_ge.
    rewrite (while_loop_iterates _ _ _ (S n)).
    + rewrite fold_append_if_valid; [reflexivity|].
      intros v Hv. apply iterates_In in Hv. destruct Hv as (i & Hi & ->).
      apply is_valid_iff. split; [|intros o []].
      pose proof (iterate_down r i (wall_width wall)) as E.
      pose proof (step_bound i ltac:(lia)). pose proof (step_nonneg i). lra.
    + exact fuel_enough.
    + intros v Hv. apply iterates_In in Hv. destruct Hv as (i & Hi & ->).
      apply Qle_bool_iff. pose proof (iterate_down r i (wall_width wall)) as E.
      pose proof (step_bound i ltac:(lia)). lra.
    + apply Qle_bool_false.
      pose proof (iterate_down r (S n) (wall_width wall)) as E. lra.
Qed.

End FullRows.

(** *** The rows of scenario A *)

Lemma full_row_left_to_right y y' n :
  y == y' ->
  forall x s,
    x == inject_Z (Z.of_nat s) * 0.01 ->
    same_points
      (map (fun v => (v, y)) (iterates (fun x => x + 0.01) x n))
      (map (fun i => (inject_Z (Z.of_nat i) * 0.01, y')) (seq s n)).
Proof.
  intro Hy. induction n as [|n IH]; intros x s Hx; simpl; constructor.
  - split; assumption.
  - apply IH. rewrite inject_Z_succ. lra.
Qed.

Lemma full_row_right_to_left y y' n :
  y == y' ->
  forall x s,
    x + 0.01 == inject_Z (Z.of_nat (s + n)) * 0.01 ->
    same_points
      (map (fun v => (v, y)) (iterates (fun x => x - 0.01) x n))
      (map (fun i => (inject_Z (Z.of_nat i) * 0.01, y')) (rev (seq s n))).
Proof.
  intro Hy. induction n as [|n IH]; intros x s Hx.
  - constructor.
  - rewrite seq_S, rev_app_distr. simpl. constructor.
    + split; [|exact Hy]. cbn [fst].
      replace (s + S n)%nat with (S (s + n)) in Hx by lia.
      rewrite inject_Z_succ in Hx. lra.
    + apply IH. replace (s + S n)%nat with (S (s + n)) in Hx by lia.
      rewrite inject_Z_succ in Hx. lra.
Qed.

Lemma same_points_flat_map {A B : Type} (f : A -> list Point) (g : B -> list Point)
    (l1 : list A) (l2 : list B) :
  Forall2 (fun a b => same_points (f a) (g b)) l1 l2 ->
  same_points (flat_map f l1) (flat_map g l2).
Proof.
  induction 1 as [|a b r1 r2 Hab _ IH]; simpl; [constructor|].
  apply Forall2_app; assumption.
Qed.

Lemma scenario_A_row_points row k :
  scenario_A_row_ok row k ->
  same_points (full_row scenario_A_wall 0.01 501 row) (scenario_A_row k).
Proof.
  intros (Hy & Hd & _). unfold full_row, scenario_A_row. rewrite Hd.
  destruct (Nat.even k).
  - apply full_row_left_to_right; [exact Hy|reflexivity].
  - apply full_row_right_to_left; [exact Hy|reflexivity].
Qed.

Lemma scenario_A_rows_ok :
  Forall2 scenario_A_row_ok
    (zigzag_rows scenario_A_wall 0.2 (zigzag_fuel scenario_A_wall 0.2) (0.2 / 2) 1)
    (seq 0 25).
Proof.
  vm_compute zigzag_fuel. cbn [zigzag_rows seq].
  repeat (match goal with
          | |- context [Qlt_bool ?a ?b] =>
              let v := eval vm_compute in (Qlt_bool a b) in
              change (Qlt_bool a b) with v; cbv iota
          end).
  repeat (constructor; [repeat split; vm_compute; (reflexivity || discriminate)|]).
  constructor.
Qed.

Lemma full_rows_length wall r n (rows : list (Q * Z)) :
  length (flat_map (full_row wall r n) rows) = (length rows * n)%nat.
Proof.
  assert (Hi : forall next m x, length (iterates next x m) = m).
  { intros next m. induction m as [|m IHm]; intro x; simpl;
      [reflexivity|now rewrite IHm]. }
  induction rows as [|row rest IH]; [reflexivity|].
  cbn [flat_map]. rewrite length_app, IH. unfold full_row.
  rewrite length_map. destruct (snd row =? 1)%Z; rewrite Hi; simpl; lia.
Qed.

Lemma scenario_A_generated :
  plan_zigzag scenario_A_wall [] 0.2 0.02 0.01
  = Some (flat_map (full_row scenario_A_wall 0.01 501)
            (zigzag_rows scenario_A_wall 0.2
               (zigzag_fuel scenario_A_wall 0.2) (0.2 / 2) 1)).
Proof.
  pose proof scenario_A_rows_ok as Hrows.
  rewrite (plan_zigzag_by_rows scenario_A_wall [] 0.2 0.02 0.01 eq_refl eq_refl).
  generalize dependent (zigzag_rows scenario_A_wall 0.2
                          (zigzag_fuel scenario_A_wall 0.2) (0.2 / 2) 1).
  intros rows Hrows.
  rewrite (for_each_appends
             (fun row => scan_row scenario_A_wall [] 0.02 0.01 (fst row) (snd row))
             (full_row scenario_A_wall 0.01 501) rows); [reflexivity|].
  intros row st Hin.
  assert (Hrow : exists k, scenario_A_row_ok row k).
  { clear - Hrows Hin. induction Hrows as [|a b r1 r2 Hab _ IH]; [contradiction|].
    destruct Hin as [<-|Hin]; [now exists b|now apply IH]. }
  destruct Hrow as (k & _ & _ & Hy0 & Hy1).
  destruct row as [y direction]. cbn [fst snd] in *.
  apply (scan_full_row scenario_A_wall 0.02 0.01 500).
  - reflexivity.
  - vm_compute. discriminate.
  - reflexivity.
  - vm_compute. lia.
  - exact Hy0.
  - exact Hy1.
Qed.

Lemma scenario_A_planning :
  exists pts,
    plan_zigzag scenario_A_wall [] 0.2 0.02 0.01 = Some pts
    /\ same_points pts (flat_map scenario_A_row (seq 0 25))
    /\ length pts = 12525%nat
    /\ forall max_points tolerance,
         plan scenario_A_wall [] scenario_A_settings max_points tolerance
         = Some (if (max_points <? 12525)%nat
                 then Raise (TrajectoryTooLarge 12525)
                 else Ok (make_trajectory scenario_A_settings pts)).
Proof.
  pose proof scenario_A_rows_ok as Hrows.
  pose proof scenario_A_generated as G.
  generalize dependent (zigzag_rows scenario_A_wall 0.2
                          (zigzag_fuel scenario_A_wall 0.2) (0.2 / 2) 1).
  intros rows Hrows G.
  assert (Hlen : length (flat_map (full_row scenario_A_wall 0.01 501) rows)
                 = 12525%nat).
  { rewrite full_rows_length, (Forall2_length Hrows). reflexivity. }
  assert (Hsame : same_points (flat_map (full_row scenario_A_wall 0.01 501) rows)
                              (flat_map scenario_A_row (seq 0 25))).
  { apply same_points_flat_map. revert Hrows. apply Forall2_impl.
    intros row k. apply scenario_A_row_points. }
  generalize dependent (flat_map (full_row scenario_A_wall 0.01 501) rows).
  intros pts G Hlen Hsame.
  exists pts. split; [exact G|]. split; [exact Hsame|]. split; [exact Hlen|].
  intros max_points tolerance.
  assert (Gen : generate scenario_A_wall [] scenario_A_settings tolerance = Some pts)
    by exact G.
  unfold plan, plan_points. rewrite Gen. cbn [check_obstacles].
  unfold accept, check_not_empty, check_point_count. rewrite Hlen.
  change (12525 =? 0)%nat with false. cbv iota.
  destruct (max_points <? 12525)%nat; [reflexivity|].
  unfold validate_path_safety.
  rewrite check_points_all_valid.
  - change (expanded_obstacles [] scenario_A_settings) with (@nil Rectangle).
    rewrite check_segments_no_obstacles. reflexivity.
  - apply generate_valid with (tolerance := tolerance). exact Gen.
Qed.

(** With the constant of the algorithm document, [MAX_POINTS = 10000],
    the planning call of scenario A raises "Trajectory too large". *)
Lemma scenario_A_exceeds_MAX_POINTS :
  plan scenario_A_wall [] scenario_A_settings MAX_POINTS 0.001
  = Some (Raise (TrajectoryTooLarge 12525)).
Proof.
  destruct scenario_A_planning as (pts & _ & _ & _ & Hplan).
  rewrite Hplan. reflexivity.
Qed.

(** C9, as the code has it: on the 5 x 5 wall without obstacles, with
    spacing 0.2 and resolution 0.01, the zigzag planner generates 25
    rows at [y = 0.1, 0.3, ..., 4.9], each of 501 points from [x = 0]
    to [x = 5]: 12525 points.  The planning call returns them when the
    configured maximum is at least 12525, and raises "Trajectory too
    large" when it is smaller. *)
Theorem scenario_A_rows :
  exists pts,
    plan_zigzag scenario_A_wall [] 0.2 0.02 0.01 = Some pts
    /\ same_points pts (flat_map scenario_A_row (seq 0 25))
    /\ length pts = (25 * 501)%nat
    /\ (forall max_points tolerance,
          (12525 <= max_points)%nat ->
          plan scenario_A_wall [] scenario_A_settings max_points tolerance
          = Some (Ok (make_trajectory scenario_A_settings pts)))
    /\ (forall max_points tolerance,
          (max_points < 12525)%nat ->
          plan scenario_A_wall [] scenario_A_settings max_points tolerance
          = Some (Raise (TrajectoryTooLarge 12525))).
Proof.
  destruct scenario_A_planning as (pts & G & Hsame & Hlen & Hplan).
  exists pts. split; [exact G|]. split; [exact Hsame|]. split; [exact Hlen|]. split.
  - intros max_points tolerance Hmax. rewrite Hplan.
    apply Nat.ltb_ge in Hmax. rewrite Hmax. reflexivity.
  - intros max_points tolerance Hmax. rewrite Hplan.
    apply Nat.ltb_lt in Hmax. rewrite Hmax. reflexivity.
Qed.

Lemma scenario_A_rows_witness :
  exists traj,
    plan scenario_A_wall [] scenario_A_settings 50000 0.001 = Some (Ok traj)
    /\ point_count traj = 12525%nat.
Proof.
  destruct scenario_A_rows as (pts & _ & _ & Hlen & Hok & _).
  exists (make_trajectory scenario_A_settings pts). split.
  - apply Hok. apply Nat.leb_le. vm_compute. reflexivity.
  - exact Hlen.
Defined.

(** ** The front end *)

Module AppFacts.
Import App.

Lemma request_plan_requests api st wall config :
  fixed_settings config ->
  Forall (plans_with (pattern config)) (snd (request_plan api st wall config)).
Proof.
  intro H. unfold request_plan.
  destruct (createPlan api (wall_id wall) config) as [err|pathResult].
  - simpl. constructor; [split; [reflexivity|exact H]|constructor].
  - destruct (getTrajectory api pathResult true) as [err|fullPath]; simpl;
      (constructor; [split; [reflexivity|exact H]|]);
      (constructor; [exact I|constructor]).
Qed.

Lemma request_plan_pattern api st wall config :
  selectedPattern (fst (request_plan api st wall config)) = selectedPattern st.
Proof.
  unfold request_plan.
  destruct (createPlan api (wall_id wall) config) as [err|pathResult];
    [reflexivity|].
  destruct (getTrajectory api pathResult true); reflexivity.
Qed.

Lemma plannerConfig_create_fixed p :
  pattern (plannerConfig_create p) = p /\ fixed_settings (plannerConfig_create p).
Proof. destruct p; repeat split. Qed.

Lemma plannerConfig_regenerate_fixed p :
  pattern (plannerConfig_regenerate p) = p
  /\ fixed_settings (plannerConfig_regenerate p).
Proof. destruct p; repeat split. Qed.

Lemma step_requests api st ev :
  Forall (plans_with (selectedPattern st)) (snd (step api st ev)).
Proof.
  destruct ev as [p|wallData| |]; simpl.
  - constructor.
  - destruct (activePath st); [constructor|].
    unfold createWallAndPath.
    destruct (createWall api wallData) as [err|newWall]; simpl.
    + repeat constructor.
    + destruct (request_plan api _ newWall (plannerConfig_create (selectedPattern st)))
        as [st2 requests] eqn:E.
      simpl. constructor; [exact I|].
      change requests with (snd (st2, requests)). rewrite <- E.
      destruct (plannerConfig_create_fixed (selectedPattern st)) as (Hp & Hf).
      rewrite <- Hp at 1. apply request_plan_requests. exact Hf.
  - unfold regenerate.
    destruct (activeWall st) as [wall|]; [|constructor].
    destruct (activePath st); [|constructor].
    destruct (plannerConfig_regenerate_fixed (selectedPattern st)) as (Hp & Hf).
    rewrite <- Hp at 1. apply request_plan_requests. exact Hf.
  - destruct (activeWall st); [|constructor].
    destruct (activePath st); constructor.
Qed.

Lemma plans_with_fixed p request :
  plans_with p request -> plans_with_fixed_settings request.
Proof. destruct request; simpl; tauto. Qed.

(** C10: whatever the user does, every plan request the front end
    issues, from the wall form or from the Regenerate button, has speed
    0.1, clearance 0.02, resolution 0.01, and spacing 0.05 for the
    spiral pattern and 0.2 for zigzag; within one step its pattern is
    the selected one. *)
Theorem plan_requests_use_fixed_settings api st events :
  Forall plans_with_fixed_settings (snd (run api st events))
  /\ forall ev, Forall (plans_with (selectedPattern st)) (snd (step api st ev)).
Proof.
  split; [|apply step_requests].
  revert st. induction events as [|ev rest IH]; intro st; simpl; [constructor|].
  pose proof (step_requests api st ev) as Hstep.
  destruct (step api st ev) as [st1 requests1].
  specialize (IH st1). destruct (run api st1 rest) as [st2 requests2].
  simpl in *. apply Forall_app. split; [|exact IH].
  eapply Forall_impl; [|exact Hstep].
  intros request. apply plans_with_fixed.
Qed.

(** A run: the form is submitted with the default pattern, then the
    spiral pattern is chosen and the path regenerated. *)
Example plan_requests_of_a_run :
  let api := mkApi (fun wallData => inr (mkWallRecord 1 wallData))
                   (fun _ _ => inr 7%nat)
                   (fun trajectory _ =>
                      inr (mkTrajectoryDetail trajectory (plannerConfig_create zigzag) []))
  in
  let wallData := mkWallCreateRequest 5 5 [] in
  snd (run api initial [SubmitWallForm wallData; SelectPattern spiral; ClickRegenerate])
  = [CreateWall wallData;
     CreatePlan 1 (mkSettings zigzag 0.2 0.1 0.02 0.01); GetTrajectory 7 true;
     CreatePlan 1 (mkSettings spiral 0.05 0.1 0.02 0.01); GetTrajectory 7 true].
Proof. reflexivity. Qed.

End AppFacts.

(** * Further properties *)

(** ** Free segments *)

Lemma chain_weaken lo lo' segments hi :
  lo' <= lo -> chain lo segments hi -> chain lo' segments hi.
Proof.
  destruct segments as [|seg rest]; simpl; [trivial|].
  intros Hlo (H1 & H2 & H3 & H4). repeat split; try assumption. lra.
Qed.

Lemma chain_app lo mid hi l1 :
  forall l2, lo <= mid -> chain lo l1 mid -> chain mid l2 hi -> mid <= hi ->
             chain lo (l1 ++ l2) hi.
Proof.
  revert lo. induction l1 as [|seg rest IH]; intros lo l2 Hlo H1 H2 Hhi; simpl.
  - eapply chain_weaken; eassumption.
  - simpl in H1. destruct H1 as (Ha & Hb & Hc & Hd).
    repeat split; try assumption; [lra|].
    apply IH; assumption.
Qed.

Lemma chain_upper lo segments hi :
  chain lo segments hi -> forall seg, In seg segments -> lo <= fst seg /\ snd seg <= hi.
Proof.
  revert lo. induction segments as [|s rest IH]; intros lo H seg Hin; [contradiction|].
  simpl in H. destruct H as (Ha & Hb & Hc & Hd).
  destruct Hin as [<-|Hin]; [split; assumption|].
  destruct (IH _ Hd seg Hin). split; lra.
Qed.

Lemma split_segment_chain obs seg :
  0 <= rect_width obs -> fst seg < snd seg ->
  chain (fst seg) (split_segment obs seg) (snd seg).
Proof.
  destruct seg as [s e]. cbn [fst snd]. intros Hw Hse. unfold split_segment.
  destruct (Qlt_bool e (rect_x obs) || Qlt_bool (rect_x obs + rect_width obs) s) eqn:E.
  - simpl. lra.
  - apply orb_false_iff in E. destruct E as (E1 & E2). qbool.
    destruct (Qlt_bool s (rect_x obs)) eqn:F1;
      destruct (Qlt_bool (rect_x obs + rect_width obs) e) eqn:F2;
      qbool; simpl; repeat split; lra.
Qed.

Lemma flat_map_split_chain obs :
  0 <= rect_width obs ->
  forall segments lo hi,
    chain lo segments hi -> lo <= hi ->
    chain lo (flat_map (split_segment obs) segments) hi.
Proof.
  intro Hw. induction segments as [|seg rest IH]; intros lo hi H Hlohi; [exact I|].
  simpl in H. destruct H as (Ha & Hb & Hc & Hd). cbn [flat_map].
  apply chain_app with (mid := snd seg); try lra.
  - apply chain_weaken with (lo := fst seg); [exact Ha|].
    now apply split_segment_chain.
  - apply IH; assumption.
Qed.

Lemma free_segments_loop_chain y c obstacles :
  (forall o, In o obstacles -> 0 <= rect_width o + 2 * c) ->
  forall segments lo hi,
    chain lo segments hi -> lo <= hi ->
    chain lo (free_segments_loop y obstacles c segments) hi.
Proof.
  induction obstacles as [|o rest IH]; intros Hw segments lo hi H Hlohi; [exact H|].
  cbn [free_segments_loop].
  assert (Hrest : forall o', In o' rest -> 0 <= rect_width o' + 2 * c)
    by (intros o' Ho'; apply Hw; now right).
  destruct (Qle_bool _ y && Qle_bool y _).
  - apply IH; try assumption. apply flat_map_split_chain; try assumption.
    cbn [expand_obstacle rect_width]. apply Hw. now left.
  - apply IH; assumption.
Qed.

Lemma chain_nth lo segments hi :
  chain lo segments hi ->
  forall i seg,
    nth_error segments i = Some seg ->
    lo <= fst seg /\ fst seg < snd seg /\ snd seg <= hi
    /\ forall next, nth_error segments (S i) = Some next -> snd seg <= fst next.
Proof.
  revert lo. induction segments as [|s rest IH]; intros lo H i seg Hi.
  - destruct i; discriminate.
  - simpl in H. destruct H as (Ha & Hb & Hc & Hd). destruct i as [|i].
    + injection Hi as <-. repeat split; try assumption.
      intros next Hn. simpl in Hn. destruct rest as [|s2 rest']; [discriminate|].
      injection Hn as <-. simpl in Hd. tauto.
    + simpl in Hi. destruct (IH _ Hd i seg Hi) as (H1 & H2 & H3 & H4).
      repeat split; try assumption. lra.
Qed.

(** X1: on a wall of positive width, with obstacles whose expanded
    width is not negative, the free segments of a row lie inside
    [[0, W]], each has [start < end], and they come from left to right
    without overlapping: each ends no later than the next one
    starts. *)
Theorem free_segments_ordered wall y obstacles c :
  0 < wall_width wall ->
  (forall o, In o obstacles -> 0 <= rect_width o + 2 * c) ->
  forall i seg,
    nth_error (get_free_segments_in_row wall y obstacles c) i = Some seg ->
    0 <= fst seg /\ fst seg < snd seg /\ snd seg <= wall_width wall
    /\ forall next,
         nth_error (get_free_segments_in_row wall y obstacles c) (S i) = Some next ->
         snd seg <= fst next.
Proof.
  intros HW Hobs. apply chain_nth. unfold get_free_segments_in_row.
  apply free_segments_loop_chain; [exact Hobs| |lra].
  simpl. lra.
Qed.

Lemma free_segments_ordered_witness :
  let wall := mkWall 5 5 in
  let obstacles := [mkRectangle 1 1 1 1; mkRectangle 3 1 0.5 1] in
  let segments := get_free_segments_in_row wall 1.5 obstacles 0.02 in
  exists seg next,
    nth_error segments 0 = Some seg /\ nth_error segments 1 = Some next
    /\ 0 <= fst seg /\ fst seg < snd seg /\ snd seg <= fst next.
Proof.
  intros wall obstacles segments.
  assert (Hobs : forall o, In o obstacles -> 0 <= rect_width o + 2 * 0.02)
    by (intros o [<-|[<-|[]]]; vm_compute; discriminate).
  pose proof (free_segments_ordered wall 1.5 obstacles 0.02 eq_refl Hobs 0) as T.
  eexists. eexists.
  split; [vm_compute; reflexivity|]. split; [vm_compute; reflexivity|].
  destruct (T _ eq_refl) as (H1 & H2 & _ & H4).
  split; [exact H1|]. split; [exact H2|]. apply H4. reflexivity.
Defined.

Lemma split_segment_sound obs seg piece :
  In piece (split_segment obs seg) ->
  fst seg <= fst piece /\ snd piece <= snd seg
  /\ forall x, fst piece < x -> x < snd piece ->
               x < rect_x obs \/ rect_x obs + rect_width obs < x.
Proof.
  destruct seg as [s e]. unfold split_segment. cbn [fst snd].
  destruct (Qlt_bool e (rect_x obs) || Qlt_bool (rect_x obs + rect_width obs) s) eqn:E.
  - intros [<-|[]]. cbn [fst snd]. repeat split; try lra.
    intros x Hx1 Hx2. apply orb_true_iff in E. destruct E as [E|E]; qbool; lra.
  - apply orb_false_iff in E. destruct E as (E1 & E2). qbool.
    intro Hin. apply in_app_or in Hin. destruct Hin as [Hin|Hin].
    + destruct (Qlt_bool s (rect_x obs)) eqn:F; [|contradiction].
      destruct Hin as [<-|[]]. qbool. cbn [fst snd]. repeat split; try lra.
      intros x _ Hx. now left.
    + destruct (Qlt_bool (rect_x obs + rect_width obs) e) eqn:F; [|contradiction].
      destruct Hin as [<-|[]]. qbool. cbn [fst snd]. repeat split; try lra.
      intros x Hx _. now right.
Qed.

Lemma split_segment_complete obs seg x :
  fst seg <= x -> x <= snd seg ->
  x < rect_x obs \/ rect_x obs + rect_width obs < x ->
  exists piece, In piece (split_segment obs seg) /\ fst piece <= x /\ x <= snd piece.
Proof.
  destruct seg as [s e]. cbn [fst snd]. intros Hs He Hfree. unfold split_segment.
  destruct (Qlt_bool e (rect_x obs) || Qlt_bool (rect_x obs + rect_width obs) s) eqn:E.
  - exists (s, e). split; [now left|]. cbn [fst snd]. lra.
  - destruct Hfree as [Hl|Hr].
    + assert (F : Qlt_bool s (rect_x obs) = true) by (apply Qlt_bool_iff; lra).
      rewrite F. exists (s, rect_x obs). split; [now left|]. cbn [fst snd]. lra.
    + assert (F : Qlt_bool (rect_x obs + rect_width obs) e = true)
        by (apply Qlt_bool_iff; lra).
      rewrite F. exists (rect_x obs + rect_width obs, e). split.
      * apply in_or_app. right. now left.
      * cbn [fst snd]. lra.
Qed.

Lemma free_segments_loop_sound y c obstacles :
  forall segments seg,
    In seg (free_segments_loop y obstacles c segments) ->
    (exists seg0, In seg0 segments /\ fst seg0 <= fst seg /\ snd seg <= snd seg0)
    /\ forall o x, In o obstacles -> fst seg < x -> x < snd seg ->
                   contains_point (expand_obstacle o c) x y = false.
Proof.
  induction obstacles as [|o rest IH]; intros segments seg Hin.
  - split; [|intros o x []]. exists seg. repeat split; [exact Hin|lra|lra].
  - cbn [free_segments_loop] in Hin.
    destruct (Qle_bool (rect_y (expand_obstacle o c)) y
              && Qle_bool y (rect_y (expand_obstacle o c)
                             + rect_height (expand_obstacle o c))) eqn:E.
    + destruct (IH _ _ Hin) as ((piece & Hpiece & Hp1 & Hp2) & Hrest).
      apply in_flat_map in Hpiece. destruct Hpiece as (seg0 & Hseg0 & Hpiece).
      destruct (split_segment_sound _ _ _ Hpiece) as (Hs1 & Hs2 & Hfree).
      split.
      * exists seg0. repeat split; [exact Hseg0|lra|lra].
      * intros o' x [<-|Ho'] Hx1 Hx2; [|now apply Hrest].
        apply contains_point_false.
        destruct (Hfree x ltac:(lra) ltac:(lra)) as [H|H]; [left|right; left];
          exact H.
    + destruct (IH _ _ Hin) as (Hsub & Hrest). split; [exact Hsub|].
      intros o' x [<-|Ho'] Hx1 Hx2; [|now apply Hrest].
      apply contains_point_false. apply andb_false_iff in E.
      destruct E as [E|E]; apply Qle_bool_false in E; right; right; [left|right];
        exact E.
Qed.

Lemma free_segments_loop_complete y c obstacles x :
  (forall o, In o obstacles -> contains_point (expand_obstacle o c) x y = false) ->
  forall segments,
    (exists seg0, In seg0 segments /\ fst seg0 <= x /\ x <= snd seg0) ->
    exists seg, In seg (free_segments_loop y obstacles c segments)
                /\ fst seg <= x /\ x <= snd seg.
Proof.
  induction obstacles as [|o rest IH]; intros Hfree segments Hin; [exact Hin|].
  cbn [free_segments_loop].
  assert (Hrest : forall o', In o' rest ->
                             contains_point (expand_obstacle o' c) x y = false)
    by (intros o' Ho'; apply Hfree; now right).
  destruct (Qle_bool (rect_y (expand_obstacle o c)) y
            && Qle_bool y (rect_y (expand_obstacle o c)
                           + rect_height (expand_obstacle o c))) eqn:E.
  - apply IH; [exact Hrest|].
    destruct Hin as (seg0 & Hseg0 & H1 & H2).
    pose proof (Hfree o (or_introl eq_refl)) as Ho.
    apply contains_point_false in Ho. qbool.
    destruct (split_segment_complete (expand_obstacle o c) seg0 x H1 H2)
      as (piece & Hpiece & Hp); [lra|].
    exists piece. split; [|exact Hp].
    apply in_flat_map. now exists seg0.
  - apply IH; assumption.
Qed.

(** X2: the free segments of a row are the free part of the row: no
    point strictly inside a segment is in an expanded obstacle, and
    every point of the row between 0 and [W] that is in no expanded
    obstacle lies in one of the segments. *)
Theorem free_segments_exact wall y obstacles c :
  (forall seg x,
     In seg (get_free_segments_in_row wall y obstacles c) ->
     fst seg < x -> x < snd seg ->
     0 <= x /\ x <= wall_width wall
     /\ forall o, In o obstacles ->
                  contains_point (expand_obstacle o c) x y = false)
  /\ (forall x,
        0 <= x -> x <= wall_width wall ->
        (forall o, In o obstacles ->
                   contains_point (expand_obstacle o c) x y = false) ->
        exists seg, In seg (get_free_segments_in_row wall y obstacles c)
                    /\ fst seg <= x /\ x <= snd seg).
Proof.
  unfold get_free_segments_in_row. split.
  - intros seg x Hin Hx1 Hx2.
    destruct (free_segments_loop_sound _ _ _ _ _ Hin)
      as ((seg0 & [<-|[]] & H1 & H2) & Hfree).
    cbn [fst snd] in H1, H2. repeat split; try lra.
    intros o Ho. now apply Hfree.
  - intros x Hx0 HxW Hfree. apply free_segments_loop_complete; [exact Hfree|].
    exists (0, wall_width wall). split; [now left|]. cbn [fst snd]. lra.
Qed.

(** ** Merging obstacles, continued *)

Lemma remove_overlapping_length obs merged m :
  find_overlapping obs merged = Some m ->
  S (length (remove_overlapping obs merged)) = length merged.
Proof.
  induction merged as [|m0 rest IH]; simpl; [discriminate|].
  destruct (overlaps obs m0); [reflexivity|].
  intro H. simpl. now rewrite IH.
Qed.

Lemma merge_loop_length obstacles :
  forall merged,
    (length (merge_loop obstacles merged) <= length obstacles + length merged)%nat.
Proof.
  induction obstacles as [|obs rest IH]; intro merged; simpl; [lia|].
  destruct (find_overlapping obs merged) as [ov|] eqn:F.
  - etransitivity; [apply IH|]. rewrite length_app. simpl.
    apply remove_overlapping_length in F. lia.
  - etransitivity; [apply IH|]. rewrite length_app. simpl. lia.
Qed.

(** X3: [merge_obstacles] never uncovers anything and never adds
    rectangles: every input obstacle lies inside one of the output
    rectangles, and the output has at most as many rectangles as the
    input. *)
Theorem merge_obstacles_conservative obstacles :
  Forall (fun o => exists m, In m (merge_obstacles obstacles) /\ rect_included o m)
         obstacles
  /\ (length (merge_obstacles obstacles) <= length obstacles)%nat.
Proof.
  split.
  - apply Forall_forall. intros o Ho. now apply merge_obstacles_covers.
  - unfold merge_obstacles. pose proof (merge_loop_length obstacles []) as H.
    simpl in H. lia.
Qed.

Lemma overlaps_sym a b : overlaps a b = overlaps b a.
Proof.
  unfold overlaps.
  destruct (Qle_bool (rect_x a) _), (Qle_bool (rect_x b) _),
           (Qle_bool (rect_y a) _), (Qle_bool (rect_y b) _); reflexivity.
Qed.

Lemma find_overlapping_none obs merged :
  Forall (fun m => overlaps m obs = false) merged ->
  find_overlapping obs merged = None.
Proof.
  induction 1 as [|m rest Hm _ IH]; simpl; [reflexivity|].
  rewrite overlaps_sym, Hm. exact IH.
Qed.

Lemma merge_loop_disjoint obstacles :
  forall merged,
    ForallOrdPairs (fun a b => overlaps a b = false) (merged ++ obstacles) ->
    merge_loop obstacles merged = merged ++ obstacles.
Proof.
  induction obstacles as [|obs rest IH]; intros merged H; simpl.
  - now rewrite app_nil_r.
  - assert (F : find_overlapping obs merged = None).
    { apply find_overlapping_none. clear IH.
      induction merged as [|m ms IHm]; [constructor|].
      simpl in H. inversion H as [|? ? Hm Hrest]; subst. constructor.
      - rewrite Forall_forall in Hm. apply Hm. apply in_or_app. right. now left.
      - now apply IHm. }
    rewrite F, IH; rewrite <- app_assoc; [reflexivity|exact H].
Qed.

(** X4: a list of obstacles of which no two overlap is left as it is
    by [merge_obstacles]. *)
Theorem merge_obstacles_keeps_disjoint obstacles :
  ForallOrdPairs (fun a b => overlaps a b = false) obstacles ->
  merge_obstacles obstacles = obstacles.
Proof.
  intro H. unfold merge_obstacles. now rewrite merge_loop_disjoint.
Qed.

Lemma merge_obstacles_keeps_disjoint_witness :
  merge_obstacles [mkRectangle 1.5 3.5 1.2 0.8; mkRectangle 3.5 1 0.4 0.4;
                   mkRectangle 0.5 0.5 0.6 0.6]
  = [mkRectangle 1.5 3.5 1.2 0.8; mkRectangle 3.5 1 0.4 0.4;
     mkRectangle 0.5 0.5 0.6 0.6].
Proof.
  apply merge_obstacles_keeps_disjoint.
  repeat (constructor; [repeat constructor|]). constructor.
Defined.

(** ** Clearance *)

Lemma Qabs_lower (a c : Q) : c < a \/ c < - a -> c < Qabs a.
Proof.
  intros [H|H].
  - eapply Qlt_le_trans; [exact H|apply Qle_Qabs].
  - eapply Qlt_le_trans; [exact H|]. rewrite <- Qabs_opp. apply Qle_Qabs.
Qed.

(** X5: a point that passes [is_valid] keeps more than the clearance
    from every point of every obstacle, horizontally or vertically. *)
Theorem valid_point_keeps_clearance wall obstacles c x y :
  is_valid wall (expand_obstacles obstacles c) x y = true ->
  forall o u v,
    In o obstacles -> contains_point o u v = true ->
    c < Qabs (x - u) \/ c < Qabs (y - v).
Proof.
  intros Hvalid o u v Ho Huv.
  apply is_valid_iff in Hvalid. destruct Hvalid as (_ & Hout).
  assert (He : In (expand_obstacle o c) (expand_obstacles obstacles c))
    by (unfold expand_obstacles; apply in_map_iff; now exists o).
  specialize (Hout _ He). apply contains_point_false in Hout.
  apply contains_point_iff in Huv.
  cbn [expand_obstacle rect_x rect_y rect_width rect_height] in Hout.
  destruct Hout as [H|[H|[H|H]]].
  - left. apply Qabs_lower. right. lra.
  - left. apply Qabs_lower. left. lra.
  - right. apply Qabs_lower. right. lra.
  - right. apply Qabs_lower. left. lra.
Qed.

Lemma valid_point_keeps_clearance_witness :
  0.02 < Qabs (0.97 - 1) \/ 0.02 < Qabs (1.5 - 1.5).
Proof.
  apply (valid_point_keeps_clearance (mkWall 5 5) [mkRectangle 1 1 1 1] 0.02
           0.97 1.5 eq_refl (mkRectangle 1 1 1 1) 1 1.5).
  - now left.
  - reflexivity.
Defined.

(** ** Validation, continued *)

Section ValidationExact.
Variable wall : Wall.
Variable expanded : list Rectangle.
Variables tolerance res : Q.

Lemma check_segments_clear pts :
  forall i,
    check_segments expanded tolerance res i pts = Ok tt
    <-> consecutive_clear expanded tolerance res pts.
Proof.
  induction pts as [|p1 rest IH]; intro i; [simpl; tauto|].
  destruct rest as [|p2 rest']; [simpl; tauto|].
  cbn [check_segments consecutive_clear].
  destruct (segment_crosses_obstacle expanded tolerance res
              (fst p1) (snd p1) (fst p2) (snd p2)).
  - split; [discriminate|]. intros [H _]. discriminate.
  - rewrite (IH (S i)). tauto.
Qed.

Lemma consecutive_clear_nth pts :
  consecutive_clear expanded tolerance res pts <->
  forall k p q,
    nth_error pts k = Some p -> nth_error pts (S k) = Some q ->
    segment_crosses_obstacle expanded tolerance res
      (fst p) (snd p) (fst q) (snd q) = false.
Proof.
  induction pts as [|p1 rest IH].
  - simpl. split; [|trivial]. intros _ k p q H. destruct k; discriminate.
  - destruct rest as [|p2 rest'].
    + simpl. split; [|trivial]. intros _ k p q _ H. destruct k as [|[|k]]; discriminate.
    + cbn [consecutive_clear]. rewrite IH. split.
      * intros [H0 Hrest] k p q Hp Hq. destruct k as [|k].
        -- injection Hp as <-. injection Hq as <-. exact H0.
        -- now apply (Hrest k).
      * intro H. split; [now apply (H 0%nat)|].
        intros k p q Hp Hq. now apply (H (S k)).
Qed.

Lemma check_points_valid pts :
  check_points wall expanded pts = Ok tt <-> all_valid wall expanded pts.
Proof.
  split; [intro H; exact (check_points_ok wall expanded pts tt H)|].
  apply check_points_all_valid.
Qed.

Lemma check_points_raise pts e :
  check_points wall expanded pts = Raise e ->
  exists k p,
    e = PointInsideObstacle p /\ nth_error pts k = Some p
    /\ is_valid wall expanded (fst p) (snd p) = false
    /\ forall j q, (j < k)%nat -> nth_error pts j = Some q ->
                   is_valid wall expanded (fst q) (snd q) = true.
Proof.
  induction pts as [|p0 rest IH]; simpl; [discriminate|].
  destruct (is_valid wall expanded (fst p0) (snd p0)) eqn:E; simpl.
  - intro H. destruct (IH H) as (k & p & He & Hk & Hp & Hbefore).
    exists (S k), p. repeat split; try assumption.
    intros j q Hj Hq. destruct j as [|j].
    + injection Hq as <-. exact E.
    + apply (Hbefore j); [lia|exact Hq].
  - intros [= <-]. exists 0%nat, p0. repeat split; try assumption.
    intros j q Hj. lia.
Qed.

Lemma check_segments_raise pts :
  forall i e,
    check_segments expanded tolerance res i pts = Raise e ->
    exists k p q,
      e = SegmentCrossesObstacle (i + k)
      /\ nth_error pts k = Some p /\ nth_error pts (S k) = Some q
      /\ segment_crosses_obstacle expanded tolerance res
           (fst p) (snd p) (fst q) (snd q) = true
      /\ forall j p' q', (j < k)%nat ->
           nth_error pts j = Some p' -> nth_error pts (S j) = Some q' ->
           segment_crosses_obstacle expanded tolerance res
             (fst p') (snd p') (fst q') (snd q') = false.
Proof.
  induction pts as [|p1 rest IH]; intros i e H; [discriminate|].
  destruct rest as [|p2 rest']; [discriminate|].
  cbn [check_segments] in H.
  destruct (segment_crosses_obstacle expanded tolerance res
              (fst p1) (snd p1) (fst p2) (snd p2)) eqn:E.
  - injection H as <-. exists 0%nat, p1, p2. rewrite Nat.add_0_r.
    repeat split; try assumption. intros j p' q' Hj. lia.
  - destruct (IH _ _ H) as (k & p & q & He & Hp & Hq & Hc & Hbefore).
    exists (S k), p, q. repeat split; try assumption.
    + rewrite He. f_equal. lia.
    + intros j p' q' Hj Hp' Hq'. destruct j as [|j].
      * injection Hp' as <-. injection Hq' as <-. exact E.
      * apply (Hbefore j); [lia|exact Hp'|exact Hq'].
Qed.

End ValidationExact.

(** X6: [validate_path_safety] accepts a path exactly when every
    point passes [is_valid] and no two consecutive points are joined by
    a segment that fails the segment test. *)
Theorem validate_path_safety_exact wall expanded tolerance res pts :
  validate_path_safety wall expanded tolerance res pts = Ok tt
  <-> (forall p, In p pts -> is_valid wall expanded (fst p) (snd p) = true)
      /\ (forall k p q,
            nth_error pts k = Some p -> nth_error pts (S k) = Some q ->
            segment_crosses_obstacle expanded tolerance res
              (fst p) (snd p) (fst q) (snd q) = false).
Proof.
  split.
  - apply validate_path_safety_ok.
  - intros (Hpts & Hsegs). unfold validate_path_safety.
    rewrite (proj2 (check_points_valid wall expanded pts) Hpts).
    apply check_segments_clear. apply consecutive_clear_nth. exact Hsegs.
Qed.

(** X7: when [validate_path_safety] raises, the error names the first
    offender: the first point that fails [is_valid], or, when all
    points pass, the index of the first segment that fails the segment
    test. *)
Theorem validate_path_safety_reports_first wall expanded tolerance res pts e :
  validate_path_safety wall expanded tolerance res pts = Raise e ->
  (exists k p,
     e = PointInsideObstacle p /\ nth_error pts k = Some p
     /\ is_valid wall expanded (fst p) (snd p) = false
     /\ forall j q, (j < k)%nat -> nth_error pts j = Some q ->
                    is_valid wall expanded (fst q) (snd q) = true)
  \/ (exists k p q,
        e = SegmentCrossesObstacle k
        /\ (forall p', In p' pts -> is_valid wall expanded (fst p') (snd p') = true)
        /\ nth_error pts k = Some p /\ nth_error pts (S k) = Some q
        /\ segment_crosses_obstacle expanded tolerance res
             (fst p) (snd p) (fst q) (snd q) = true
        /\ forall j p' q', (j < k)%nat ->
             nth_error pts j = Some p' -> nth_error pts (S j) = Some q' ->
             segment_crosses_obstacle expanded tolerance res
               (fst p') (snd p') (fst q') (snd q') = false).
Proof.
  unfold validate_path_safety.
  destruct (check_points wall expanded pts) as [[]|e0] eqn:E.
  - intro H. right.
    destruct (check_segments_raise expanded tolerance res pts 0 e H)
      as (k & p & q & He & Hrest).
    exists k, p, q. split; [exact He|]. split; [|exact Hrest].
    now apply check_points_ok with (u := tt).
  - intros [= <-]. left. now apply check_points_raise.
Qed.

Lemma validate_path_safety_reports_first_witness :
  let wall := mkWall 5 5 in
  let expanded := expand_obstacles [mkRectangle 1 1 1 1] 0.02 in
  let pts := [(0, 1.5); (0.5, 1.5); (2.5, 1.5); (3, 1.5)] in
  validate_path_safety wall expanded 0.001 0.01 pts
  = Raise (SegmentCrossesObstacle 1)
  /\ segment_crosses_obstacle expanded 0.001 0.01 0.5 1.5 2.5 1.5 = true.
Proof.
  intros wall expanded pts.
  assert (E : validate_path_safety wall expanded 0.001 0.01 pts
              = Raise (SegmentCrossesObstacle 1)) by reflexivity.
  split; [exact E|].
  destruct (validate_path_safety_reports_first _ _ _ _ _ _ E)
    as [(k & p & He & _)|(k & p & q & He & _ & Hp & Hq & Hc & _)].
  - discriminate.
  - injection He as <-. injection Hp as <-. injection Hq as <-. exact Hc.
Defined.

(** ** The spiral never needs the final validation *)

Section SpiralSafe.
Variable wall : Wall.
Variable obstacles : list Rectangle.
Variables s c r tolerance : Q.

Lemma rev_cons_head (p : Point) (l : list Point) :
  l <> [] -> hd_error (rev (p :: l)) = hd_error (rev l).
Proof.
  intro H. simpl. destruct (rev l) as [|x xs] eqn:E; [|reflexivity].
  apply (f_equal (@rev Point)) in E. rewrite rev_involutive in E. contradiction.
Qed.

Lemma consecutive_clear_snoc pts p :
  consecutive_clear (expand_obstacles obstacles c) tolerance r pts ->
  crosses_obstacle obstacles c r tolerance pts p = false ->
  consecutive_clear (expand_obstacles obstacles c) tolerance r (pts ++ [p]).
Proof.
  induction pts as [|p1 rest IH]; intros Hclear Hlast; [exact I|].
  destruct rest as [|p2 rest'].
  - simpl. split; [|exact I]. exact Hlast.
  - change ((p1 :: p2 :: rest') ++ [p]) with (p1 :: (p2 :: rest') ++ [p]).
    cbn [consecutive_clear] in Hclear. destruct Hclear as (H0 & Hrest).
    change (consecutive_clear (expand_obstacles obstacles c) tolerance r
              (p1 :: (p2 :: rest') ++ [p]))
      with (segment_crosses_obstacle (expand_obstacles obstacles c) tolerance r
              (fst p1) (snd p1) (fst p2) (snd p2) = false
            /\ consecutive_clear (expand_obstacles obstacles c) tolerance r
                 ((p2 :: rest') ++ [p])).
    split; [exact H0|]. apply IH; [exact Hrest|].
    unfold crosses_obstacle in Hlast |- *.
    assert (Hh : hd_error (rev (p1 :: p2 :: rest')) = hd_error (rev (p2 :: rest')))
      by (apply rev_cons_head; discriminate).
    destruct (rev (p1 :: p2 :: rest')) as [|l1 t1];
      destruct (rev (p2 :: rest')) as [|l2 t2]; simpl in Hh;
      try discriminate; try reflexivity.
    injection Hh as <-. exact Hlast.
Qed.

Lemma append_if_safe_clear p pts :
  consecutive_clear (expand_obstacles obstacles c) tolerance r pts ->
  consecutive_clear (expand_obstacles obstacles c) tolerance r
    (append_if_safe wall obstacles c r tolerance p pts).
Proof.
  intro H. unfold append_if_safe.
  destruct (is_valid wall (expand_obstacles obstacles c) (fst p) (snd p)); [|exact H].
  destruct (crosses_obstacle obstacles c r tolerance pts p) eqn:E; [exact H|].
  now apply consecutive_clear_snoc.
Qed.

Lemma spiral_layer_clear rect pts out :
  consecutive_clear (expand_obstacles obstacles c) tolerance r pts ->
  spiral_layer wall obstacles c r tolerance rect pts = Some out ->
  consecutive_clear (expand_obstacles obstacles c) tolerance r out.
Proof.
  intros H. unfold spiral_layer, while_le, while_ge, while_gt.
  destruct (while_loop _ _ _ _ (rect_x rect) pts) as [p1|] eqn:E1; [|discriminate].
  destruct (while_loop _ _ _ _ (rect_y rect + r) p1) as [p2|] eqn:E2; [|discriminate].
  destruct (while_loop _ _ _ _ (rect_x rect + rect_width rect - r) p2) as [p3|] eqn:E3;
    [|discriminate].
  intro E4.
  assert (H1 : consecutive_clear (expand_obstacles obstacles c) tolerance r p1).
  { revert E1. apply while_loop_invariant; [|exact H].
    intros x st _. apply append_if_safe_clear. }
  assert (H2 : consecutive_clear (expand_obstacles obstacles c) tolerance r p2).
  { revert E2. apply while_loop_invariant; [|exact H1].
    intros x st _. apply append_if_safe_clear. }
  assert (H3 : consecutive_clear (expand_obstacles obstacles c) tolerance r p3).
  { revert E3. apply while_loop_invariant; [|exact H2].
    intros x st _. apply append_if_safe_clear. }
  revert E4. apply while_loop_invariant; [|exact H3].
  intros x st _. apply append_if_safe_clear.
Qed.

Lemma plan_spiral_clear pts :
  plan_spiral wall obstacles s c r tolerance = Some pts ->
  consecutive_clear (expand_obstacles obstacles c) tolerance r pts.
Proof.
  unfold plan_spiral. intro H. apply spiral_loop_layers in H.
  revert H. apply for_each_invariant; [|exact I].
  intros off st st' _ Hst. now apply spiral_layer_clear.
Qed.

End SpiralSafe.

(** X8: whatever the spiral planner returns passes
    [validate_path_safety] (with the same obstacles, tolerance and
    resolution): it stores a point only if the point is valid and the
    segment from the last stored point passes the segment test. *)
Theorem plan_spiral_passes_validation wall obstacles s c r tolerance pts :
  plan_spiral wall obstacles s c r tolerance = Some pts ->
  validate_path_safety wall (expand_obstacles obstacles c) tolerance r pts = Ok tt.
Proof.
  intro H. unfold validate_path_safety.
  rewrite check_points_all_valid; [|now apply plan_spiral_valid in H].
  apply check_segments_clear. now apply plan_spiral_clear in H.
Qed.

Lemma plan_spiral_passes_validation_witness :
  exists pts,
    plan_spiral (mkWall 1 1) [mkRectangle 0.25 0 0.25 0.5] 0.25 0 0.125 0.001
    = Some pts
    /\ length pts = 7%nat
    /\ validate_path_safety (mkWall 1 1)
         (expand_obstacles [mkRectangle 0.25 0 0.25 0.5] 0) 0.001 0.125 pts = Ok tt.
Proof.
  eexists. split; [vm_compute; reflexivity|]. split; [reflexivity|].
  apply (plan_spiral_passes_validation (mkWall 1 1) [mkRectangle 0.25 0 0.25 0.5]
           0.25 0 0.125 0.001).
  vm_compute. reflexivity.
Defined.

(** X9: neither planner ever emits a point that fails [is_valid], so
    the first loop of [validate_path_safety] cannot raise on a
    planner's output. *)
Theorem planners_emit_valid_points wall obstacles s c r tolerance :
  (forall pts, plan_zigzag wall obstacles s c r = Some pts ->
               check_points wall (expand_obstacles obstacles c) pts = Ok tt)
  /\ (forall pts, plan_spiral wall obstacles s c r tolerance = Some pts ->
                  check_points wall (expand_obstacles obstacles c) pts = Ok tt).
Proof.
  split; intros pts H; apply check_points_all_valid.
  - now apply plan_zigzag_valid in H.
  - now apply plan_spiral_valid in H.
Qed.

(** X10: in the loop of the algorithm document's [plan_spiral] the
    [break] on [rect.width <= 0 or rect.height <= 0] is never taken:
    the loop condition [offset < min(W, H) / 2] already excludes it. *)
Theorem design_spiral_break_is_dead wall offset :
  let rect := layer_rect wall offset in
  Qlt_bool offset (Qmin (wall_width wall) (wall_height wall) / 2)
  && (Qle_bool (rect_width rect) 0 || Qle_bool (rect_height rect) 0) = false.
Proof.
  intro rect. subst rect. unfold layer_rect. cbn [rect_width rect_height].
  destruct (Qlt_bool offset _) eqn:G; [|reflexivity]. cbn [andb].
  apply Qlt_bool_iff in G. unfold Qdiv in G. change (/ 2) with (1 # 2) in G.
  pose proof (Q.le_min_l (wall_width wall) (wall_height wall)).
  pose proof (Q.le_min_r (wall_width wall) (wall_height wall)).
  apply orb_false_iff. split; apply Qle_bool_false; lra.
Qed.

(** ** Termination *)




(** ** Path length, continued *)

Lemma euclidean_distance_sym p q : euclidean_distance p q = euclidean_distance q p.
Proof.
  unfold euclidean_distance. f_equal. f_equal; apply Rsqr_neg_minus.
Qed.

Lemma euclidean_distance_nonneg p q : (0 <= euclidean_distance p q)%R.
Proof. unfold euclidean_distance. apply sqrt_pos. Qed.

Lemma euclidean_distance_triangle p q m :
  (euclidean_distance p q <= euclidean_distance p m + euclidean_distance m q)%R.
Proof.
  unfold euclidean_distance.
  pose proof (triangle (Q2R (fst q)) (Q2R (snd q)) (Q2R (fst p)) (Q2R (snd p))
                       (Q2R (fst m)) (Q2R (snd m))) as T.
  unfold dist_euc in T. Lra.lra.
Qed.

Lemma sum_consecutive_nonneg pts : (0 <= sum_consecutive_distances pts)%R.
Proof.
  induction pts as [|p1 rest IH]; [simpl; Lra.lra|].
  destruct rest as [|p2 rest']; [simpl; Lra.lra|].
  change (sum_consecutive_distances (p1 :: p2 :: rest'))
    with (euclidean_distance p1 p2 + sum_consecutive_distances (p2 :: rest'))%R.
  pose proof (euclidean_distance_nonneg p1 p2). Lra.lra.
Qed.

Lemma last_default {A : Type} (l : list A) :
  forall x d d', last (x :: l) d = last (x :: l) d'.
Proof.
  induction l as [|y rest IH]; intros x d d'; [reflexivity|].
  change (last (x :: y :: rest) d) with (last (y :: rest) d).
  change (last (x :: y :: rest) d') with (last (y :: rest) d').
  apply IH.
Qed.

Lemma sum_consecutive_straight rest :
  forall p,
    (euclidean_distance p (last (p :: rest) p)
     <= sum_consecutive_distances (p :: rest))%R.
Proof.
  induction rest as [|p2 rest' IH]; intro p.
  - simpl. unfold euclidean_distance.
    replace (Q2R (fst p) - Q2R (fst p))%R with 0%R by Lra.lra.
    replace (Q2R (snd p) - Q2R (snd p))%R with 0%R by Lra.lra.
    rewrite Rsqr_0, Rplus_0_r, sqrt_0. Lra.lra.
  - change (sum_consecutive_distances (p :: p2 :: rest'))
      with (euclidean_distance p p2 + sum_consecutive_distances (p2 :: rest'))%R.
    assert (L : last (p :: p2 :: rest') p = last (p2 :: rest') p2)
      by (change (last (p :: p2 :: rest') p) with (last (p2 :: rest') p);
          apply last_default).
    rewrite L. specialize (IH p2).
    pose proof (euclidean_distance_triangle p (last (p2 :: rest') p2) p2). Lra.lra.
Qed.

(** X12: a path is never shorter than the straight line from its
    first point to its last, and its length is never negative. *)
Theorem path_length_at_least_straight_line p rest :
  (euclidean_distance p (last (p :: rest) p) <= calculate_path_length (p :: rest))%R
  /\ (0 <= calculate_path_length (p :: rest))%R.
Proof.
  rewrite calculate_path_length_sum. split.
  - apply sum_consecutive_straight.
  - apply sum_consecutive_nonneg.
Qed.

Lemma sum_consecutive_app l1 :
  forall p l2,
    sum_consecutive_distances (l1 ++ p :: l2)
    = (sum_consecutive_distances (l1 ++ [p]) + sum_consecutive_distances (p :: l2))%R.
Proof.
  induction l1 as [|a l1' IH]; intros p l2.
  - simpl app. change (sum_consecutive_distances [p]) with 0%R. Lra.lra.
  - destruct l1' as [|b l1''].
    + simpl app.
      change (sum_consecutive_distances (a :: p :: l2))
        with (euclidean_distance a p + sum_consecutive_distances (p :: l2))%R.
      change (sum_consecutive_distances [a; p])
        with (euclidean_distance a p + 0)%R.
      Lra.lra.
    + change ((a :: b :: l1'') ++ p :: l2) with (a :: b :: (l1'' ++ p :: l2)).
      change ((a :: b :: l1'') ++ [p]) with (a :: b :: (l1'' ++ [p])).
      change (sum_consecutive_distances (a :: b :: (l1'' ++ p :: l2)))
        with (euclidean_distance a b
              + sum_consecutive_distances ((b :: l1'') ++ p :: l2))%R.
      change (sum_consecutive_distances (a :: b :: (l1'' ++ [p])))
        with (euclidean_distance a b
              + sum_consecutive_distances ((b :: l1'') ++ [p]))%R.
      rewrite IH. Lra.lra.
Qed.

Lemma sum_consecutive_rev pts :
  sum_consecutive_distances (rev pts) = sum_consecutive_distances pts.
Proof.
  induction pts as [|a rest IH]; [reflexivity|].
  destruct rest as [|b rest']; [reflexivity|].
  change (rev (a :: b :: rest')) with (rev (b :: rest') ++ [a]).
  change (rev (b :: rest')) with (rev rest' ++ [b]) at 1.
  rewrite <- app_assoc. change ([b] ++ [a]) with [b; a].
  rewrite sum_consecutive_app.
  change (rev rest' ++ [b]) with (rev (b :: rest')). rewrite IH.
  change (sum_consecutive_distances [b; a]) with (euclidean_distance b a + 0)%R.
  change (sum_consecutive_distances (a :: b :: rest'))
    with (euclidean_distance a b + sum_consecutive_distances (b :: rest'))%R.
  rewrite (euclidean_distance_sym b a). Lra.lra.
Qed.

(** X13: the length of a path is the length up to any of its points
    plus the length from that point on, and the reversed path has the
    same length. *)
Theorem path_length_splits_and_reverses l1 p l2 :
  calculate_path_length (l1 ++ p :: l2)
  = (calculate_path_length (l1 ++ [p]) + calculate_path_length (p :: l2))%R
  /\ calculate_path_length (rev (l1 ++ p :: l2))
     = calculate_path_length (l1 ++ p :: l2).
Proof.
  rewrite !calculate_path_length_sum. split.
  - apply sum_consecutive_app.
  - apply sum_consecutive_rev.
Qed.

(** ** Polyline compression *)

Section CompressionFacts.
Variable are_collinear : Point -> Point -> Point -> Q -> bool.
Variable tolerance : Q.

Lemma compress_middle_cons compressed curr next rest :
  compress_middle are_collinear tolerance compressed (curr :: next :: rest)
  = compress_middle are_collinear tolerance
      (if negb (are_collinear (last compressed (0, 0)) curr next tolerance)
       then compressed ++ [curr] else compressed)
      (next :: rest).
Proof. reflexivity. Qed.

Lemma compress_loop_middle rest :
  forall pre compressed,
    fold_left (compress_step are_collinear tolerance (pre ++ rest))
              (seq (length pre) (length rest - 1)) compressed
    = compress_middle are_collinear tolerance compressed rest.
Proof.
  induction rest as [|curr rest' IH]; intros pre compressed; [reflexivity|].
  destruct rest' as [|next rest''].
  - reflexivity.
  - replace (length (curr :: next :: rest'') - 1)%nat
      with (S (length (next :: rest'') - 1)) by (simpl; lia).
    cbn [seq fold_left]. rewrite compress_middle_cons.
    specialize (IH (pre ++ [curr])).
    rewrite <- app_assoc in IH. change ([curr] ++ next :: rest'')
      with (curr :: next :: rest'') in IH.
    replace (length (pre ++ [curr])) with (S (length pre)) in IH
      by (rewrite length_app; simpl; lia).
    rewrite <- IH. f_equal.
    unfold compress_step.
    rewrite nth_middle.
    replace (nth (length pre + 1) (pre ++ curr :: next :: rest'') (0, 0)) with next.
    + reflexivity.
    + rewrite app_nth2 by lia.
      replace (length pre + 1 - length pre)%nat with 1%nat by lia. reflexivity.
Qed.

Lemma compress_middle_subsequence rest :
  forall compressed,
    exists kept,
      compress_middle are_collinear tolerance compressed rest = compressed ++ kept
      /\ subsequence kept (removelast rest).
Proof.
  induction rest as [|curr rest' IH]; intro compressed.
  - exists []. split; [now rewrite app_nil_r|constructor].
  - destruct rest' as [|next rest''].
    + exists []. split; [now rewrite app_nil_r|constructor].
    + rewrite compress_middle_cons.
      change (removelast (curr :: next :: rest''))
        with (curr :: removelast (next :: rest'')).
      destruct (negb (are_collinear (last compressed (0, 0)) curr next tolerance)).
      * destruct (IH (compressed ++ [curr])) as (kept & -> & Hsub).
        exists (curr :: kept). split; [now rewrite <- app_assoc|].
        now apply subsequence_keep.
      * destruct (IH compressed) as (kept & -> & Hsub).
        exists kept. split; [reflexivity|]. now apply subsequence_skip.
Qed.

Lemma subsequence_refl {A : Type} (l : list A) : subsequence l l.
Proof. induction l; [constructor|now apply subsequence_keep]. Qed.

Lemma subsequence_app {A : Type} (l1 l2 : list A) :
  subsequence l1 l2 -> forall l, subsequence (l1 ++ l) (l2 ++ l).
Proof.
  induction 1 as [|x l1 l2 _ IH|x l1 l2 _ IH]; intro l; simpl.
  - apply subsequence_refl.
  - apply subsequence_skip, IH.
  - apply subsequence_keep, IH.
Qed.

Lemma subsequence_length {A : Type} (l1 l2 : list A) :
  subsequence l1 l2 -> (length l1 <= length l2)%nat.
Proof. induction 1; simpl; lia. Qed.

Lemma compress_path_shape p0 rest :
  (3 <= length (p0 :: rest))%nat ->
  exists kept,
    compress_path are_collinear tolerance (p0 :: rest)
    = p0 :: kept ++ [last rest (0, 0)]
    /\ subsequence kept (removelast rest).
Proof.
  intro Hlen. unfold compress_path.
  assert (E : (length (p0 :: rest) <? 3)%nat = false) by (apply Nat.ltb_ge; exact Hlen).
  rewrite E. cbn [nth].
  replace (length (p0 :: rest) - 2)%nat with (length rest - 1)%nat by (simpl; lia).
  pose proof (compress_loop_middle rest [p0] [p0]) as L.
  change (length [p0]) with 1%nat in L. change ([p0] ++ rest) with (p0 :: rest) in L.
  rewrite L.
  destruct (compress_middle_subsequence rest [p0]) as (kept & -> & Hsub).
  exists kept. split; [|exact Hsub].
  assert (Hl : last (p0 :: rest) (0, 0) = last rest (0, 0)).
  { destruct rest as [|x xs]; [simpl in Hlen; lia|reflexivity]. }
  rewrite Hl. now rewrite <- app_assoc.
Qed.

End CompressionFacts.

(** X14: [compress_path] returns a path of fewer than three points
    unchanged; in every case its result keeps the first and the last
    point and is a selection of the input points in their order (so it
    is no longer than the input), whatever [are_collinear] answers. *)
Theorem compress_path_keeps_ends are_collinear tolerance points :
  ((length points < 3)%nat -> compress_path are_collinear tolerance points = points)
  /\ subsequence (compress_path are_collinear tolerance points) points
  /\ hd_error (compress_path are_collinear tolerance points) = hd_error points
  /\ last (compress_path are_collinear tolerance points) (0, 0) = last points (0, 0)
  /\ (length (compress_path are_collinear tolerance points) <= length points)%nat.
Proof.
  assert (Hshort : (length points < 3)%nat ->
                   compress_path are_collinear tolerance points = points).
  { intro H. unfold compress_path. apply Nat.ltb_lt in H. now rewrite H. }
  split; [exact Hshort|].
  destruct (Nat.lt_ge_cases (length points) 3) as [H|H].
  - rewrite (Hshort H). repeat split; try reflexivity; try lia.
    apply subsequence_refl.
  - destruct points as [|p0 rest]; [simpl in H; lia|].
    destruct (compress_path_shape are_collinear tolerance p0 rest H)
      as (kept & -> & Hsub).
    assert (Hrest : rest = removelast rest ++ [last rest (0, 0)]).
    { apply app_removelast_last. intros ->. simpl in H. lia. }
    assert (Hs : subsequence (p0 :: kept ++ [last rest (0, 0)]) (p0 :: rest)).
    { apply subsequence_keep. rewrite Hrest at 2. now apply subsequence_app. }
    split; [exact Hs|]. split; [reflexivity|]. split.
    + change (p0 :: kept ++ [last rest (0, 0)])
        with ((p0 :: kept) ++ [last rest (0, 0)]).
      rewrite last_last.
      destruct rest as [|x xs]; [simpl in H; lia|reflexivity].
    + now apply subsequence_length.
Qed.

(** ** The two descriptions of the zigzag planner *)

Lemma for_each_same {A St : Type} (f g : A -> St -> option St) (l : list A) :
  (forall item st, f item st = g item st) ->
  forall st, for_each l f st = for_each l g st.
Proof.
  intro H. induction l as [|item rest IH]; intro st; simpl; [reflexivity|].
  rewrite H. destruct (g item st); [apply IH|reflexivity].
Qed.

Lemma readme_scan_row wall obstacles c r y direction d pts :
  (direction = Readme.LEFT_TO_RIGHT /\ d = 1%Z)
  \/ (direction = Readme.RIGHT_TO_LEFT /\ d = (-1)%Z) ->
  for_each (match direction with
            | Readme.LEFT_TO_RIGHT => get_free_segments_in_row wall y obstacles c
            | Readme.RIGHT_TO_LEFT => rev (get_free_segments_in_row wall y obstacles c)
            end)
           (Readme.scan_segment wall (expand_obstacles obstacles c) r y direction) pts
  = scan_row wall obstacles c r y d pts.
Proof.
  intros [[-> ->]|[-> ->]]; unfold scan_row; cbn [Z.eqb Pos.eqb];
    apply for_each_same; intros [a b] st; reflexivity.
Qed.

Lemma readme_zigzag_loop wall obstacles s c r fuel :
  forall y direction d pts,
    (direction = Readme.LEFT_TO_RIGHT /\ d = 1%Z)
    \/ (direction = Readme.RIGHT_TO_LEFT /\ d = (-1)%Z) ->
    Readme.zigzag_loop wall (expand_obstacles obstacles c)
      (fun y => get_free_segments_in_row wall y obstacles c) s r fuel y direction pts
    = zigzag_loop wall obstacles s c r fuel y d pts.
Proof.
  induction fuel as [|fuel IH]; intros y direction d pts Hd; [reflexivity|].
  cbn [Readme.zigzag_loop zigzag_loop].
  destruct (Qlt_bool y (wall_height wall)); [|reflexivity].
  rewrite (readme_scan_row wall obstacles c r y direction d pts Hd).
  destruct (scan_row wall obstacles c r y d pts); [|reflexivity].
  apply IH. destruct Hd as [[-> ->]|[-> ->]]; [right|left]; split; reflexivity.
Qed.

(** X15: the README's [plan_zigzag] (a two-valued direction that is
    toggled) and the algorithm document's (a direction 1 or -1 that is
    multiplied by -1) return the same points, when [find_free_segments]
    is [get_free_segments_in_row]. *)
Theorem readme_plan_zigzag_agrees wall obstacles s c r :
  Readme.plan_zigzag wall (expand_obstacles obstacles c)
    (fun y => get_free_segments_in_row wall y obstacles c) s r
  = plan_zigzag wall obstacles s c r.
Proof.
  unfold Readme.plan_zigzag, plan_zigzag, zigzag_fuel.
  apply readme_zigzag_loop. left. split; reflexivity.
Qed.

(** ** Rows and jumps *)

Lemma consecutive_snoc {A : Type} (R : A -> A -> Prop) (l : list A) (x : A) :
  consecutive R l -> (forall a, In a l -> R a x) -> consecutive R (l ++ [x]).
Proof.
  induction l as [|a rest IH]; intros Hc Hall; [exact I|].
  destruct rest as [|b rest'].
  - simpl. split; [|exact I]. apply Hall. now left.
  - change ((a :: b :: rest') ++ [x]) with (a :: b :: (rest' ++ [x])).
    change (consecutive R (a :: b :: rest')) with (R a b /\ consecutive R (b :: rest'))
      in Hc.
    change (consecutive R (a :: b :: rest' ++ [x]))
      with (R a b /\ consecutive R ((b :: rest') ++ [x])).
    destruct Hc as (Hab & Hrest). split; [exact Hab|].
    apply IH; [exact Hrest|]. intros a' Ha'. apply Hall. now right.
Qed.

Lemma consecutive_nth {A : Type} (R : A -> A -> Prop) (l : list A) :
  consecutive R l ->
  forall k p q, nth_error l k = Some p -> nth_error l (S k) = Some q -> R p q.
Proof.
  induction l as [|a rest IH]; intros Hc k p q Hp Hq; [destruct k; discriminate|].
  destruct rest as [|b rest']; [destruct k as [|[|k]]; discriminate|].
  change (consecutive R (a :: b :: rest')) with (R a b /\ consecutive R (b :: rest'))
    in Hc.
  destruct Hc as (Hab & Hrest). destruct k as [|k].
  - injection Hp as <-. injection Hq as <-. exact Hab.
  - now apply (IH Hrest k).
Qed.

Section ZigzagRows.
Variable wall : Wall.
Variable obstacles : list Rectangle.
Variables s c r : Q.
Hypothesis spacing_positive : 0 < s.

(** What holds of the points stored so far while row [y] is scanned. *)
Definition rows_so_far (y : Q) (pts : list Point) : Prop :=
  consecutive (same_row_or_above s) pts
  /\ forall p, In p pts -> snd p == y \/ snd p + s <= y.

Lemma append_if_valid_rows y x pts :
  rows_so_far y pts -> rows_so_far y (append_if_valid wall obstacles c y x pts).
Proof.
  intros (Hc & Hall). unfold append_if_valid.
  destruct (is_valid wall (expand_obstacles obstacles c) x y); [|now split].
  split.
  - apply consecutive_snoc; [exact Hc|].
    intros a Ha. unfold same_row_or_above. cbn [snd]. now apply Hall.
  - intros p Hp. apply in_app_or in Hp. destruct Hp as [Hp|[<-|[]]].
    + now apply Hall.
    + left. reflexivity.
Qed.

Lemma scan_row_rows y direction pts out :
  rows_so_far y pts ->
  scan_row wall obstacles c r y direction pts = Some out ->
  rows_so_far y out.
Proof.
  intros H. unfold scan_row. destruct (direction =? 1)%Z.
  - apply for_each_invariant; [|exact H].
    intros seg st st' _ Hst. unfold while_le.
    apply while_loop_invariant; [|exact Hst].
    intros x st0 _. apply append_if_valid_rows.
  - apply for_each_invariant; [|exact H].
    intros seg st st' _ Hst. unfold while_ge.
    apply while_loop_invariant; [|exact Hst].
    intros x st0 _. apply append_if_valid_rows.
Qed.

Lemma zigzag_loop_rows_apart fuel :
  forall y direction pts out,
    rows_so_far y pts ->
    zigzag_loop wall obstacles s c r fuel y direction pts = Some out ->
    consecutive (same_row_or_above s) out.
Proof.
  induction fuel as [|fuel IH]; intros y direction pts out Hinv Hrun; [discriminate|].
  cbn [zigzag_loop] in Hrun. destruct (Qlt_bool y (wall_height wall)).
  - destruct (scan_row wall obstacles c r y direction pts) as [pts'|] eqn:E;
      [|discriminate].
    apply (IH (y + s) (direction * -1)%Z pts' out); [|exact Hrun].
    destruct (scan_row_rows _ _ _ _ Hinv E) as (Hc & Hall). split; [exact Hc|].
    intros p Hp. right. destruct (Hall p Hp); lra.
  - injection Hrun as <-. exact (proj1 Hinv).
Qed.

End ZigzagRows.

Lemma row_change_is_jump s p q :
  0.01 < s -> snd p + s <= snd q ->
  CanvasViz.isJump p q = true /\ Readme.isJump p q = true.
Proof.
  intros Hs Hpq.
  assert (Hdy : Qlt_bool 0.01 (Qabs (snd q - snd p)) = true).
  { apply Qlt_bool_iff. apply Qabs_lower. left. lra. }
  unfold CanvasViz.isJump, Readme.isJump. cbv zeta. rewrite Hdy. split; reflexivity.
Qed.

(** X16: in the output of [plan_zigzag] two consecutive points are
    either in the same row or the second is at least one spacing
    higher; with a spacing above 0.01 the view's [isJump] (and the
    README's) reports every such row change as a jump. *)
Theorem zigzag_row_changes_are_jumps wall obstacles s c r pts :
  0 < s ->
  plan_zigzag wall obstacles s c r = Some pts ->
  forall k p q,
    nth_error pts k = Some p -> nth_error pts (S k) = Some q ->
    snd p == snd q
    \/ (snd p + s <= snd q
        /\ (0.01 < s ->
            CanvasViz.isJump p q = true /\ Readme.isJump p q = true)).
Proof.
  intros Hs Hplan k p q Hp Hq. unfold plan_zigzag in Hplan.
  assert (Hc : consecutive (same_row_or_above s) pts).
  { apply (zigzag_loop_rows_apart wall obstacles s c r Hs
             (zigzag_fuel wall s) (s / 2) 1%Z [] pts); [|exact Hplan].
    split; [exact I|]. intros p0 []. }
  destruct (consecutive_nth _ _ Hc k p q Hp Hq) as [H|H]; [now left|right].
  split; [exact H|]. intro Hs'. now apply row_change_is_jump with (s := s).
Qed.

Lemma zigzag_row_changes_are_jumps_witness :
  exists pts p q,
    plan_zigzag (mkWall 0.02 0.4) [] 0.2 0.02 0.01 = Some pts
    /\ nth_error pts 2 = Some p /\ nth_error pts 3 = Some q
    /\ (snd p == snd q
        \/ (snd p + 0.2 <= snd q
            /\ (0.01 < 0.2 ->
                CanvasViz.isJump p q = true /\ Readme.isJump p q = true))).
Proof.
  eexists. eexists. eexists.
  split; [vm_compute; reflexivity|].
  split; [reflexivity|]. split; [reflexivity|].
  eapply (zigzag_row_changes_are_jumps (mkWall 0.02 0.4) [] 0.2 0.02 0.01 _
            eq_refl) with (k := 2%nat).
  - vm_compute. reflexivity.
  - reflexivity.
  - reflexivity.
Defined.

(** ** The canvas view *)

Lemma scale_bounds wall :
  0 < wall_width wall -> 0 < wall_height wall ->
  0 <= CanvasViz.scale wall
  /\ wall_width wall * CanvasViz.scale wall <= 720
  /\ wall_height wall * CanvasViz.scale wall <= 520.
Proof.
  intros HW HH. unfold CanvasViz.scale, CanvasViz.canvasWidth, CanvasViz.canvasHeight,
    CanvasViz.padding.
  set (a := (800 - 2 * 40) / wall_width wall).
  set (b := (600 - 2 * 40) / wall_height wall).
  assert (Ha : 0 <= a) by (apply Qle_shift_div_l; [exact HW|lra]).
  assert (Hb : 0 <= b) by (apply Qle_shift_div_l; [exact HH|lra]).
  assert (HaW : wall_width wall * a == 720) by (unfold a; field; lra).
  assert (HbH : wall_height wall * b == 520) by (unfold b; field; lra).
  split; [apply Q.min_glb; assumption|]. split.
  - rewrite <- HaW. apply Qmult_le_l; [exact HW|apply Q.le_min_l].
  - rewrite <- HbH. apply Qmult_le_l; [exact HH|apply Q.le_min_r].
Qed.

(** X17: [toCanvas] maps every point of the wall into the canvas less
    its padding (40 to 760 across, 40 to 560 down), and a higher point
    of the wall is drawn nearer the top of the canvas. *)
Theorem toCanvas_inside_canvas wall x y :
  0 < wall_width wall -> 0 < wall_height wall ->
  0 <= x <= wall_width wall -> 0 <= y <= wall_height wall ->
  (40 <= fst (CanvasViz.toCanvas wall x y) <= 760
   /\ 40 <= snd (CanvasViz.toCanvas wall x y) <= 560)
  /\ forall y', y <= y' ->
       snd (CanvasViz.toCanvas wall x y') <= snd (CanvasViz.toCanvas wall x y).
Proof.
  intros HW HH (Hx0 & HxW) (Hy0 & HyH).
  destruct (scale_bounds wall HW HH) as (Hs0 & HsW & HsH).
  unfold CanvasViz.toCanvas, CanvasViz.canvasHeight, CanvasViz.padding.
  cbn [fst snd].
  assert (0 <= x * CanvasViz.scale wall) by (apply Qmult_le_0_compat; assumption).
  assert (0 <= y * CanvasViz.scale wall) by (apply Qmult_le_0_compat; assumption).
  assert (x * CanvasViz.scale wall <= wall_width wall * CanvasViz.scale wall)
    by (apply Qmult_le_compat_r; assumption).
  assert (y * CanvasViz.scale wall <= wall_height wall * CanvasViz.scale wall)
    by (apply Qmult_le_compat_r; assumption).
  split; [repeat split; lra|].
  intros y' Hy'.
  assert (y * CanvasViz.scale wall <= y' * CanvasViz.scale wall)
    by (apply Qmult_le_compat_r; assumption).
  lra.
Qed.

Lemma toCanvas_inside_canvas_witness :
  (40 <= fst (CanvasViz.toCanvas (mkWall 5 5) 5 2.5) <= 760
   /\ 40 <= snd (CanvasViz.toCanvas (mkWall 5 5) 5 2.5) <= 560)
  /\ forall y', 2.5 <= y' ->
       snd (CanvasViz.toCanvas (mkWall 5 5) 5 y')
       <= snd (CanvasViz.toCanvas (mkWall 5 5) 5 2.5).
Proof.
  apply (toCanvas_inside_canvas (mkWall 5 5) 5 2.5); cbn [wall_width wall_height];
    try split; lra.
Defined.

Lemma control_in_range len st c :
  (1 <= len)%Z -> CanvasViz.quick_jump_button c ->
  (0 <= CanvasViz.currentIndex st <= len - 1)%Z ->
  (0 <= CanvasViz.currentIndex (CanvasViz.control len st c) <= len - 1)%Z.
Proof.
  intros Hlen Hc Hst. destruct c as [| | | |fraction]; cbn [CanvasViz.control].
  - destruct (Z.leb_spec (len - 1) (CanvasViz.currentIndex st));
      cbn [CanvasViz.currentIndex]; lia.
  - cbn [CanvasViz.currentIndex]. lia.
  - cbn [CanvasViz.currentIndex]. exact Hst.
  - cbn [CanvasViz.currentIndex]. lia.
  - cbn [CanvasViz.currentIndex].
    assert (Hf : 0 <= fraction <= 1).
    { cbn [CanvasViz.quick_jump_button] in Hc.
      destruct Hc as [E|[E|E]]; rewrite E; split; lra. }
    assert (Hn : 0 <= inject_Z (len - 1)).
    { change 0 with (inject_Z 0). rewrite <- Zle_Qle. lia. }
    split.
    + change 0%Z with (Qfloor 0). apply Qfloor_resp_le.
      apply Qmult_le_0_compat; [exact Hn|apply Hf].
    + rewrite <- (Qfloor_Z (len - 1)) at 2. apply Qfloor_resp_le.
      rewrite <- (Qmult_1_r (inject_Z (len - 1))) at 2.
      rewrite (Qmult_comm (inject_Z (len - 1)) fraction).
      rewrite (Qmult_comm (inject_Z (len - 1)) 1).
      apply Qmult_le_compat_r; [apply Hf|exact Hn].
Qed.

Lemma frames_from_start len n :
  (1 <= len)%Z ->
  Nat.iter n (fun st => CanvasViz.control len st CanvasViz.Frame)
    (CanvasViz.mkPlayback 0 true)
  = CanvasViz.mkPlayback (Z.min (Z.of_nat n) (len - 1)) (Z.of_nat n <=? len - 1)%Z.
Proof.
  intro Hlen. induction n as [|n IH].
  - cbv [Nat.iter nat_rect]. change (Z.of_nat 0) with 0%Z.
    rewrite Z.min_l by lia.
    replace (0 <=? len - 1)%Z with true by (symmetry; apply Z.leb_le; lia).
    reflexivity.
  - rewrite Nat.iter_succ, IH. cbn [CanvasViz.control CanvasViz.currentIndex
      CanvasViz.playing].
    destruct (Z.leb_spec (len - 1) (Z.min (Z.of_nat n) (len - 1))) as [H|H].
    + replace (Z.of_nat (S n) <=? len - 1)%Z with false
        by (symmetry; apply Z.leb_gt; lia).
      f_equal. lia.
    + replace (Z.of_nat n <=? len - 1)%Z with true
        by (symmetry; apply Z.leb_le; lia).
      replace (Z.of_nat (S n) <=? len - 1)%Z with true
        by (symmetry; apply Z.leb_le; lia).
      f_equal. lia.
Qed.

(** X18: for a trajectory of at least one point, whatever the user
    presses (reset, play or pause, end, the 25%, 50%, 75% and 100%
    buttons) and however many frames run, [currentIndex] stays an index
    of [trajectory.points]; and [n] frames after play is pressed at the
    start the index is [min(n, len - 1)], with [playing] cleared by the
    first frame that finds the index at the end. *)
Theorem playback_index_in_range len controls :
  (1 <= len)%Z ->
  Forall CanvasViz.quick_jump_button controls ->
  (0 <= CanvasViz.currentIndex
          (fold_left (CanvasViz.control len) controls CanvasViz.initial)
     <= len - 1)%Z
  /\ forall n,
       Nat.iter n (fun st => CanvasViz.control len st CanvasViz.Frame)
         (CanvasViz.control len CanvasViz.initial CanvasViz.TogglePlaying)
       = CanvasViz.mkPlayback (Z.min (Z.of_nat n) (len - 1))
                              (Z.of_nat n <=? len - 1)%Z.
Proof.
  intros Hlen Hcontrols. split.
  - assert (H0 : (0 <= CanvasViz.currentIndex CanvasViz.initial <= len - 1)%Z)
      by (cbn; lia).
    revert H0. generalize CanvasViz.initial.
    induction Hcontrols as [|c rest Hc _ IH]; intros st Hst; [exact Hst|].
    cbn [fold_left]. apply IH. now apply control_in_range.
  - intro n. now apply frames_from_start.
Qed.

Lemma playback_index_in_range_witness :
  (0 <= CanvasViz.currentIndex
          (fold_left (CanvasViz.control 5)
             [CanvasViz.TogglePlaying; CanvasViz.Frame; CanvasViz.QuickJump 0.75;
              CanvasViz.Frame; CanvasViz.Frame; CanvasViz.Frame]
             CanvasViz.initial)
     <= 5 - 1)%Z
  /\ forall n,
       Nat.iter n (fun st => CanvasViz.control 5 st CanvasViz.Frame)
         (CanvasViz.control 5 CanvasViz.initial CanvasViz.TogglePlaying)
       = CanvasViz.mkPlayback (Z.min (Z.of_nat n) (5 - 1))
                              (Z.of_nat n <=? 5 - 1)%Z.
Proof.
  apply (playback_index_in_range 5); [lia|].
  repeat (constructor; [cbn; auto|]). constructor.
Defined.

(** ** The wall form *)

Lemma filter_index_past idx l :
  forall start, (idx < start)%nat -> WallForm.filter_index start idx l = l.
Proof.
  induction l as [|obs rest IH]; intros start Hlt; [reflexivity|].
  cbn [WallForm.filter_index]. destruct (Nat.eqb_spec start idx) as [E|_]; [lia|].
  f_equal. apply IH. lia.
Qed.

Lemma filter_index_removes idx l :
  forall start, (start <= idx)%nat ->
    WallForm.filter_index start idx l
    = firstn (idx - start) l ++ skipn (S (idx - start)) l.
Proof.
  induction l as [|obs rest IH]; intros start Hle.
  - cbn [WallForm.filter_index]. now rewrite firstn_nil, skipn_nil.
  - cbn [WallForm.filter_index]. destruct (Nat.eqb_spec start idx) as [->|Hne].
    + rewrite Nat.sub_diag. cbn [firstn skipn app].
      apply filter_index_past. lia.
    + rewrite (IH (S start)) by lia.
      replace (idx - start)%nat with (S (idx - S start)) by lia.
      reflexivity.
Qed.

(** X19: [deleteObstacle(idx)] removes the obstacle at position [idx]
    and keeps the others in order; an index past the end removes
    nothing; deleting the obstacle that [addNewObstacle] has just
    appended gives the list back. *)
Theorem deleteObstacle_removes_one idx obstacleList :
  WallForm.deleteObstacle idx obstacleList
  = firstn idx obstacleList ++ skipn (S idx) obstacleList
  /\ ((length obstacleList <= idx)%nat ->
      WallForm.deleteObstacle idx obstacleList = obstacleList)
  /\ ((idx < length obstacleList)%nat ->
      S (length (WallForm.deleteObstacle idx obstacleList)) = length obstacleList)
  /\ WallForm.deleteObstacle (length obstacleList)
       (WallForm.addNewObstacle obstacleList) = obstacleList.
Proof.
  assert (H : forall i l, WallForm.deleteObstacle i l = firstn i l ++ skipn (S i) l).
  { intros i l. unfold WallForm.deleteObstacle.
    rewrite (filter_index_removes i l 0) by lia. now rewrite Nat.sub_0_r. }
  split; [apply H|]. split; [|split].
  - intro Hle. rewrite H. rewrite firstn_all2 by exact Hle.
    rewrite skipn_all2 by lia. apply app_nil_r.
  - intro Hlt. rewrite H. rewrite length_app, length_firstn, length_skipn. lia.
  - rewrite H. unfold WallForm.addNewObstacle.
    rewrite firstn_app, firstn_all, Nat.sub_diag. cbn [firstn].
    rewrite skipn_all2 by (rewrite length_app; cbn [length]; lia).
    now rewrite !app_nil_r.
Qed.

(** ** States of the application *)

Module AppStates.
Import App.

Lemma request_plan_state api st wall config :
  isGenerating (fst (request_plan api st wall config)) = false
  /\ activeWall (fst (request_plan api st wall config)) = activeWall st.
Proof.
  unfold request_plan.
  destruct (createPlan api (wall_id wall) config) as [err|pathResult];
    [split; reflexivity|].
  destruct (getTrajectory api pathResult true); split; reflexivity.
Qed.

Lemma step_settled api st ev : settled st -> settled (fst (step api st ev)).
Proof.
  intro Hst. pose proof Hst as (Hgen & Hwall).
  destruct ev as [p|wallData| |]; cbn [step].
  - exact Hst.
  - destruct (activePath st) eqn:Epath; [exact Hst|].
    unfold createWallAndPath. destruct (createWall api wallData) as [err|newWall].
    + split; [reflexivity|]. cbn [fst activePath activeWall]. now rewrite Epath.
    + match goal with
      | |- context [request_plan api ?st1 newWall ?config] =>
          pose proof (request_plan_state api st1 newWall config) as (H1 & H2);
          destruct (request_plan api st1 newWall config) as [st2 requests]
      end.
      cbn [fst] in *. split; [exact H1|]. intros _. rewrite H2. discriminate.
  - unfold regenerate. destruct (activeWall st) as [wall|] eqn:Ewall; [|exact Hst].
    destruct (activePath st) eqn:Epath; [|exact Hst].
    destruct (request_plan_state api st wall
                (plannerConfig_regenerate (selectedPattern st))) as (H1 & H2).
    split; [exact H1|]. intros _. rewrite H2, Ewall. discriminate.
  - destruct (activeWall st) as [wall|] eqn:Ewall; [|exact Hst].
    destruct (activePath st) eqn:Epath; [|exact Hst].
    split; [exact Hgen|]. cbn [fst activePath]. intro H. now elim H.
Qed.

Lemma run_settled api events :
  forall st, settled st -> settled (fst (run api st events)).
Proof.
  induction events as [|ev rest IH]; intros st Hst; [exact Hst|].
  cbn [run]. pose proof (step_settled api st ev Hst) as H1.
  destruct (step api st ev) as [st1 requests1]. cbn [fst] in H1.
  specialize (IH st1 H1). destruct (run api st1 rest) as [st2 requests2].
  exact IH.
Qed.

(** X20: after any sequence of user actions, whatever the server
    answers, [isGenerating] is false again and a trajectory is never
    active without a wall, so the result view ([activePath &&
    activeWall]) is rendered whenever there is a trajectory. *)
Theorem app_shows_path_only_with_wall api events :
  isGenerating (fst (run api initial events)) = false
  /\ (activePath (fst (run api initial events)) <> None ->
      activeWall (fst (run api initial events)) <> None).
Proof.
  apply (run_settled api events initial). split; [reflexivity|].
  intro H. now elim H.
Qed.

(** X21: when Regenerate fails, in [createPlan] or in [getTrajectory],
    the thrown message goes to [errorMessage] and the wall and the
    trajectory on screen stay as they were. *)
Theorem failed_regeneration_keeps_path api st wall path msg :
  activeWall st = Some wall -> activePath st = Some path ->
  (createPlan api (wall_id wall) (plannerConfig_regenerate (selectedPattern st))
   = inl msg
   \/ exists pathResult,
        createPlan api (wall_id wall) (plannerConfig_regenerate (selectedPattern st))
        = inr pathResult
        /\ getTrajectory api pathResult true = inl msg) ->
  fst (step api st ClickRegenerate)
  = mkState false (Some msg) (Some wall) (Some path) (selectedPattern st).
Proof.
  intros Hwall Hpath Hfail. cbn [step]. unfold regenerate.
  rewrite Hwall, Hpath. unfold request_plan.
  destruct Hfail as [E|(pathResult & E1 & E2)].
  - rewrite E. cbn [fst]. now rewrite Hwall, Hpath.
  - rewrite E1, E2. cbn [fst]. now rewrite Hwall, Hpath.
Qed.

Lemma failed_regeneration_keeps_path_witness :
  fst (step (mkApi (fun _ => inl "no wall"%string)
                   (fun _ _ => inl "planning failed"%string)
                   (fun _ _ => inl "no trajectory"%string))
            (mkState false None
               (Some (mkWallRecord 1 (mkWallCreateRequest 5 5 [])))
               (Some (mkTrajectoryDetail 1 (plannerConfig_create spiral) [(0, 0)]))
               spiral)
            ClickRegenerate)
  = mkState false (Some "planning failed"%string)
      (Some (mkWallRecord 1 (mkWallCreateRequest 5 5 [])))
      (Some (mkTrajectoryDetail 1 (plannerConfig_create spiral) [(0, 0)]))
      spiral.
Proof.
  apply (failed_regeneration_keeps_path
           (mkApi (fun _ => inl "no wall"%string)
                  (fun _ _ => inl "planning failed"%string)
                  (fun _ _ => inl "no trajectory"%string))
           (mkState false None
              (Some (mkWallRecord 1 (mkWallCreateRequest 5 5 [])))
              (Some (mkTrajectoryDetail 1 (plannerConfig_create spiral) [(0, 0)]))
              spiral)
           (mkWallRecord 1 (mkWallCreateRequest 5 5 []))
           (mkTrajectoryDetail 1 (plannerConfig_create spiral) [(0, 0)])
           "planning failed"%string eq_refl eq_refl (or_introl eq_refl)).
Defined.

End AppStates.

(** ** Adaptive resolution *)

(** X22: [adaptive_resolution] returns 5 mm, 1 cm or 2 cm, and never a
    coarser resolution for a point that is nearer to the obstacles. *)
Theorem adaptive_resolution_monotone
    (min_distance_to_obstacles : Q -> Q -> list Rectangle -> Q)
    x y x' y' obstacles :
  (0.005 <= adaptive_resolution min_distance_to_obstacles x y obstacles <= 0.02)
  /\ (min_distance_to_obstacles x y obstacles
      <= min_distance_to_obstacles x' y' obstacles ->
      adaptive_resolution min_distance_to_obstacles x y obstacles
      <= adaptive_resolution min_distance_to_obstacles x' y' obstacles).
Proof.
  unfold adaptive_resolution. cbv zeta.
  generalize (min_distance_to_obstacles x y obstacles) as d.
  generalize (min_distance_to_obstacles x' y' obstacles) as d'.
  intros d' d.
  destruct (Qlt_bool d 0.1) eqn:E1; [|destruct (Qlt_bool d 0.5) eqn:E2];
    (split; [split; lra|]); intro Hle;
    (destruct (Qlt_bool d' 0.1) eqn:E3; [|destruct (Qlt_bool d' 0.5) eqn:E4]);
    try lra;
    repeat match goal with
           | H : Qlt_bool _ _ = true |- _ => apply Qlt_bool_iff in H
           | H : Qlt_bool _ _ = false |- _ => apply Qlt_bool_false in H
           end; lra.
Qed.

(** ** Zigzag on a wall without obstacles *)



